(** * audio_ws_to_sse: the PCM -> low-pass -> accumulate -> MP3 -> SSE relay

    A shallow embedding of [src/index.ts] and of its sibling variant with
    the probe/retry logic (the second source file), and the properties of
    the specification checked against it.

    Conventions.
    - A JS [number] is an IEEE-754 binary64 value: Rocq's primitive [float].
    - An [ArrayBuffer] is a [list byte]; an [Int16Array] is a [list Z] whose
      elements are kept in the signed 16-bit range by the store conversion
      [Int16]; an index store is stdpp's [<[i:=v]>], which like a typed
      array ignores an index that is out of range.
    - An exception is the [Throw] case of [result].
    - Handlers are functions from a state and an event of the environment
      to a new state and the list of calls they made on their
      collaborators ([res], the socket, the timers, the encoder). *)

From Stdlib Require Import ZArith Lia Floats Ascii String.
From Stdlib.Strings Require Import Byte.
From stdpp Require Import list strings.

Local Open Scope Z_scope.

(** ** Results of code that may throw *)

Inductive js_error : Type :=
  | RangeError
  | EncoderError.

Inductive result (A : Type) : Type :=
  | Ok (a : A)
  | Throw (e : js_error).
Arguments Ok {A} a.
Arguments Throw {A} e.

Definition rbind {A B : Type} (r : result A) (k : A -> result B) : result B :=
  match r with
  | Ok a => k a
  | Throw e => Throw e
  end.

Notation "'try' x <- c ; k" := (rbind c (fun x => k))
  (at level 10, x name, c at level 100, k at level 200).

(** ** Numbers *)

Abbreviation number := float (only parsing).

(** The number that a signed 16-bit sample reads as. *)
Definition number_of_Z (z : Z) : number :=
  if z <? 0 then PrimFloat.opp (PrimFloat.of_uint63 (Uint63.of_Z (- z)))
  else PrimFloat.of_uint63 (Uint63.of_Z z).

(** [Math.round]: the integer closest to [x], a tie going towards
    +infinity; [None] stands for the results that are not integers (NaN and
    the infinities, which [Math.round] returns unchanged).  A finite
    binary64 value is [(-1)^s * m * 2^e] exactly, so the rounding is
    computed on integers. *)
Definition Math_round (x : number) : option Z :=
  match Prim2SF x with
  | S754_zero _ => Some 0
  | S754_finite s m e =>
      let v := if s then Z.neg m else Z.pos m in
      Some (if 0 <=? e then v * 2 ^ e
            else (2 * v + 2 ^ (- e)) / 2 ^ (1 - e))
  | S754_infinity _ | S754_nan => None
  end.

(** The conversion a store into an [Int16Array] applies (ToInt16): NaN and
    the infinities become 0, an integer is taken modulo 2^16 into
    [-32768, 32767]. *)
Definition wrap16 (n : Z) : Z :=
  let m := n mod 65536 in
  if 32768 <=? m then m - 65536 else m.

Definition Int16 (r : option Z) : Z :=
  match r with
  | Some n => wrap16 n
  | None => 0
  end.

Definition int16_range (v : Z) : Prop := -32768 <= v <= 32767.

(** Saturation to the signed 16-bit range: what the specification asks of
    the filter's output (the source has no such step). *)
Definition clamp16 (n : Z) : Z := Z.max (-32768) (Z.min 32767 n).

(** ** Configuration constants *)

Definition Math_PI : number := 0x1.921fb54442d18p+1%float.
Definition sampleRate : number := 32000%float.
Definition lowPassCutoff : number := 1000%float.
Definition blockSize : nat := 1152.

(** ** convertPCMToInt16 *)

Definition byte_to_Z (b : byte) : Z := Z.of_N (Byte.to_N b).

(** [dataView.getInt16(off, true)]: two bytes, low byte first, read as a
    two's-complement value; a [RangeError] when [off + 2] passes the end. *)
Definition getInt16 (buf : list byte) (off : nat) : result Z :=
  match buf !! off, buf !! S off with
  | Some lo, Some hi => Ok (wrap16 (byte_to_Z lo + 256 * byte_to_Z hi))
  | _, _ => Throw RangeError
  end.

(** The [for (let i = 0; i < totalSamples; i++)] loop, [n] iterations left. *)
Fixpoint convert_loop (buf : list byte) (n i : nat) (int16Array : list Z)
  : result (list Z) :=
  match n with
  | O => Ok int16Array
  | S n' =>
      try v <- getInt16 buf (i * 2);
      convert_loop buf n' (S i) (<[i := v]> int16Array)
  end.

(** [totalSamples = byteLength / 2] is a fraction when the length is odd:
    [new Int16Array(totalSamples)] truncates it, and [i < totalSamples]
    holds for one more [i] than the array has elements. *)
Definition convertPCMToInt16 (arrayBuffer : list byte) : result (list Z) :=
  let byteLength := length arrayBuffer in
  let int16Array := replicate (byteLength / 2)%nat 0 in
  let iterations := ((byteLength + 1) / 2)%nat in
  convert_loop arrayBuffer iterations 0 int16Array.

(** The inverse direction, [dataView.setInt16(off, v, true)] sample by
    sample.  The source never re-encodes; this is the specification's
    "re-encoding as little-endian 16-bit values". *)
Definition byte_of_Z (z : Z) : byte :=
  match Byte.of_N (Z.to_N (z mod 256)) with
  | Some b => b
  | None => x00
  end.

Definition setInt16 (v : Z) : list byte :=
  [byte_of_Z v; byte_of_Z (v / 256)].

Definition encodePCM (samples : list Z) : list byte :=
  concat (map setInt16 samples).

(** ** applyLowPassFilter *)

Definition filter_alpha (sampleRate cutoff : number) : number :=
  let dt := (1 / sampleRate)%float in
  let RC := (1 / (2 * Math_PI * cutoff))%float in
  (dt / (RC + dt))%float.

Definition filter_sample (alpha : number) (x : Z) (previous : number) : number :=
  (alpha * number_of_Z x + (1 - alpha) * previous)%float.

(** The [for (let i = 0; i < data.length; i++)] loop, [n] iterations left. *)
Fixpoint filter_loop (alpha : number) (data : list Z) (n i : nat)
    (filtered : list Z) (previous : number) : list Z * number :=
  match n with
  | O => (filtered, previous)
  | S n' =>
      match data !! i with
      | Some x =>
          let filteredSample := filter_sample alpha x previous in
          filter_loop alpha data n' (S i)
            (<[i := Int16 (Math_round filteredSample)]> filtered)
            filteredSample
      | None => (filtered, previous)
      end
  end.

(** Returns [(filtered, lastValue)]. *)
Definition applyLowPassFilter (data : list Z) (sampleRate cutoff prevValue : number)
  : list Z * number :=
  let alpha := filter_alpha sampleRate cutoff in
  let filtered := replicate (length data) 0 in
  filter_loop alpha data (length data) 0%nat filtered prevValue.

(** The recurrence of the docstring, [y[n] = alpha x[n] + (1 - alpha) y[n-1]]
    with [y[-1]] the carry: [filter_y alpha data carry n] is [y[n-1]]. *)
Fixpoint filter_y (alpha : number) (data : list Z) (carry : number) (n : nat)
  : number :=
  match n with
  | O => carry
  | S n' =>
      match data !! n' with
      | Some x => filter_sample alpha x (filter_y alpha data carry n')
      | None => filter_y alpha data carry n'
      end
  end.


(** ** The MP3 encoder (lamejs), an external library

    [new lamejs.Mp3Encoder(channels, sampleRate, kbps)] makes a stateful
    encoder; [encodeBuffer] consumes a block of samples and may emit bytes;
    [flush] emits the trailing bytes.  Either call may throw. *)

Class Mp3EncoderLib : Type := {
  encoder : Type;
  Mp3Encoder : Z -> number -> Z -> encoder;
  encodeBuffer : encoder -> list Z -> result (encoder * list byte);
  flush : encoder -> result (list byte)
}.

Definition channels : Z := 1.
Definition bitRate : Z := 128.

(** ** Base64 ([Buffer.from(bytes).toString('base64')]) *)

Definition b64_alphabet : string :=
  "ABCDEFGHIJKLMNOPQRSTUVWXYZabcdefghijklmnopqrstuvwxyz0123456789+/".

Definition b64_char (n : N) : ascii :=
  match String.get (N.to_nat n) b64_alphabet with
  | Some c => c
  | None => "="%char
  end.

Fixpoint base64 (bs : list byte) : string :=
  match bs with
  | [] => EmptyString
  | [a] =>
      let n := Byte.to_N a in
      String (b64_char (n / 4))
        (String (b64_char ((n mod 4) * 16)) "==")
  | [a; b] =>
      let n := Byte.to_N a in
      let m := Byte.to_N b in
      String (b64_char (n / 4))
        (String (b64_char ((n mod 4) * 16 + m / 16))
           (String (b64_char ((m mod 16) * 4)) "="))
  | a :: b :: c :: rest =>
      let n := Byte.to_N a in
      let m := Byte.to_N b in
      let o := Byte.to_N c in
      String (b64_char (n / 4))
        (String (b64_char ((n mod 4) * 16 + m / 16))
           (String (b64_char ((m mod 16) * 4 + o / 64))
              (String (b64_char (o mod 64)) (base64 rest))))
  end%N.

(** ** convertChunksToMp3 *)

(** [target.set(source, offset)] on typed arrays. *)
Definition typed_set {A : Type} (target source : list A) (offset : nat) : list A :=
  take offset target ++ source ++ drop (offset + length source) target.

(** [for (const chunk of chunks) { target.set(chunk, offset); offset += chunk.length }] *)
Fixpoint set_all {A : Type} (chunks : list (list A)) (target : list A) (offset : nat)
  : list A :=
  match chunks with
  | [] => target
  | chunk :: rest => set_all rest (typed_set target chunk offset) (offset + length chunk)
  end.

Definition total_length {A : Type} (chunks : list (list A)) : nat :=
  foldl (fun sum chunk => (sum + length chunk)%nat) 0%nat chunks.

(** [pcmData.subarray(i, i + blockSize)] *)
Definition subarray {A : Type} (a : list A) (from to : nat) : list A :=
  take (to - from) (drop from a).

(** The [for (let i = 0; i < pcmData.length; i += blockSize)] loop, [n]
    iterations left; [mp3Data] collects the non-empty fragments. *)
Fixpoint encode_loop `{Mp3EncoderLib} (pcmData : list Z) (n i : nat)
    (mp3Encoder : encoder) (mp3Data : list (list byte))
  : result (encoder * list (list byte)) :=
  match n with
  | O => Ok (mp3Encoder, mp3Data)
  | S n' =>
      let block := subarray pcmData i (i + blockSize) in
      try r <- encodeBuffer mp3Encoder block;
      let '(mp3Encoder', mp3buf) := r in
      encode_loop pcmData n' (i + blockSize) mp3Encoder'
        (if (0 <? length mp3buf)%nat then mp3Data ++ [mp3buf] else mp3Data)
  end.

(** [null] is [None]. *)
Definition convertChunksToMp3 `{Mp3EncoderLib} (pcmChunks : list (list Z))
  : result (option string) :=
  if (length pcmChunks =? 0)%nat then Ok None
  else
    let mp3Encoder := Mp3Encoder channels sampleRate bitRate in
    let totalLength := total_length pcmChunks in
    let pcmData := set_all pcmChunks (replicate totalLength 0) 0 in
    let blocks := ((length pcmData + blockSize - 1) / blockSize)%nat in
    try r <- encode_loop pcmData blocks 0 mp3Encoder [];
    let '(mp3Encoder', mp3Data) := r in
    try mp3Final <- flush mp3Encoder';
    let mp3Data' :=
      if (0 <? length mp3Final)%nat then mp3Data ++ [mp3Final] else mp3Data in
    let totalMp3Length := total_length mp3Data' in
    let mp3Combined := set_all mp3Data' (replicate totalMp3Length x00) 0 in
    Ok (Some (base64 mp3Combined)).

(** ** What the handlers do to their collaborators *)

(** The JSON object of one SSE [data:] line. *)
Inductive sse_data : Type :=
  | mp3 (base64 : string)
  | error (message : string).

Inductive call : Type :=
  | res_status_send (status : Z)                  (* res.status(s).send(text) *)
  | res_writeHead (status : Z)                    (* res.writeHead(200, event-stream) *)
  | res_status_json (status : Z) (err : string)   (* res.status(s).json({error, ...}) *)
  | res_write (d : sse_data)                      (* res.write(`data: ${JSON}\n\n`) *)
  | res_end
  | fetch_probe                                   (* fetch(wsURL.replace('ws','http')) *)
  | new_WebSocket (k : nat)                       (* the k-th socket of the request *)
  | ws_close (k : nat)                            (* remoteWs.close() *)
  | setTimeout_connectWebSocket                   (* setTimeout(connectWebSocket, RETRY_DELAY) *)
  | audioBuffer_push (filtered : list Z)          (* audioBuffer.push(filtered) *)
  | call_convertChunksToMp3 (pcmChunks : list (list Z)).

(** The payload of a ['message'] event. *)
Inductive ws_data : Type :=
  | ArrayBuffer (bytes : list byte)
  | not_ArrayBuffer.

(** ** The ['message'] handler

    [filterState] is the module-level variable; [audioBuffer] belongs to
    the connection.  The [try] covers decode, filter and push. *)
Definition on_message (filterState : number) (audioBuffer : list (list Z))
    (data : ws_data) : number * list (list Z) * list call :=
  match data with
  | ArrayBuffer bytes =>
      match convertPCMToInt16 bytes with
      | Ok int16Chunk =>
          let '(filtered, lastValue) :=
            applyLowPassFilter int16Chunk sampleRate lowPassCutoff filterState in
          (lastValue, audioBuffer ++ [filtered], [audioBuffer_push filtered])
      | Throw _ =>
          (filterState, audioBuffer,
           [res_write (error "Erro no processamento de áudio")])
      end
  | not_ArrayBuffer => (filterState, audioBuffer, [])
  end.

(** ** The [setInterval] callback

    The callback is [async]: it runs up to its [await] in the timer task,
    and the rest is a microtask.  [flush_begin] is the first part ([None]
    when the guard [audioBuffer.length > 0] fails), [flush_resume] the
    part after the [await], given what the awaited promise settled to. *)

Definition truthy (s : option string) : bool :=
  match s with
  | Some (String _ _) => true
  | Some EmptyString | None => false
  end.

Definition flush_begin `{Mp3EncoderLib} (audioBuffer : list (list Z))
  : option (result (option string)) :=
  if (0 <? length audioBuffer)%nat then Some (convertChunksToMp3 audioBuffer)
  else None.

Definition flush_resume (settled : result (option string))
    (audioBuffer : list (list Z)) : list (list Z) * list call :=
  match settled with
  | Ok mp3Base64 =>
      ([], if truthy mp3Base64
           then [res_write (mp3 (default EmptyString mp3Base64))] else [])
  | Throw _ => (audioBuffer, [res_write (error "Erro na conversão para MP3")])
  end.

(** A whole tick: the timer task followed by its microtask.  Node runs the
    microtasks a task has queued before it takes the next task. *)
Definition on_tick `{Mp3EncoderLib} (audioBuffer : list (list Z))
  : list (list Z) * list call :=
  match flush_begin audioBuffer with
  | Some settled =>
      let '(audioBuffer', calls) := flush_resume settled audioBuffer in
      (audioBuffer', call_convertChunksToMp3 audioBuffer :: calls)
  | None => (audioBuffer, [])
  end.

(** ** The event loop, for one connection

    The tasks of a connection are the socket's ['message'] events and the
    interval's ticks.  A task is taken only when the microtask queue is
    empty; the only microtask is the continuation of a tick, which carries
    what [convertChunksToMp3] settled to. *)

Record loop_state : Type := {
  l_filterState : number;
  l_audioBuffer : list (list Z);
  l_microtasks : list (result (option string))
}.

Inductive turn : Type :=
  | task_message (data : ws_data)
  | task_tick
  | microtask.

Definition is_tick (t : turn) : bool :=
  match t with
  | task_tick => true
  | _ => false
  end.

Fixpoint count_ticks (turns : list turn) : nat :=
  match turns with
  | [] => 0
  | t :: rest => ((if is_tick t then 1 else 0) + count_ticks rest)%nat
  end.

(** [None]: the event loop does not take this turn in this state. *)
Definition exec_turn `{Mp3EncoderLib} (st : loop_state) (t : turn)
  : option (loop_state * list call) :=
  match t, l_microtasks st with
  | task_message data, [] =>
      let '(filterState', audioBuffer', calls) :=
        on_message (l_filterState st) (l_audioBuffer st) data in
      Some ({| l_filterState := filterState'; l_audioBuffer := audioBuffer';
               l_microtasks := [] |}, calls)
  | task_tick, [] =>
      match flush_begin (l_audioBuffer st) with
      | Some settled =>
          Some ({| l_filterState := l_filterState st;
                   l_audioBuffer := l_audioBuffer st;
                   l_microtasks := [settled] |},
                [call_convertChunksToMp3 (l_audioBuffer st)])
      | None => Some (st, [])
      end
  | microtask, settled :: rest =>
      let '(audioBuffer', calls) := flush_resume settled (l_audioBuffer st) in
      Some ({| l_filterState := l_filterState st; l_audioBuffer := audioBuffer';
               l_microtasks := rest |}, calls)
  | _, _ => None
  end.

Fixpoint exec `{Mp3EncoderLib} (st : loop_state) (turns : list turn)
  : option (loop_state * list call) :=
  match turns with
  | [] => Some (st, [])
  | t :: rest =>
      match exec_turn st t with
      | Some (st', calls) =>
          match exec st' rest with
          | Some (st'', calls') => Some (st'', calls ++ calls')
          | None => None
          end
      | None => None
      end
  end.

Definition loop_init (filterState : number) : loop_state :=
  {| l_filterState := filterState; l_audioBuffer := []; l_microtasks := [] |}.

(** The chunks pushed and the batches handed to the encoder, read off the
    calls of a run. *)
Definition pushed_chunks (calls : list call) : list (list Z) :=
  omap (fun c => match c with audioBuffer_push f => Some f | _ => None end) calls.

Definition handed_batches (calls : list call) : list (list (list Z)) :=
  omap (fun c => match c with call_convertChunksToMp3 b => Some b | _ => None end) calls.

Definition sse_writes (calls : list call) : list sse_data :=
  omap (fun c => match c with res_write d => Some d | _ => None end) calls.

(** ** Sockets *)

Inductive ready_state : Type := CONNECTING | OPEN | CLOSING | CLOSED.

Definition is_OPEN (r : ready_state) : bool :=
  match r with
  | OPEN => true
  | _ => false
  end.

(** [remoteWs.close()] starts the closing handshake unless the socket is
    closed already. *)
Definition close_socket (r : ready_state) : ready_state :=
  match r with
  | CLOSED => CLOSED
  | _ => CLOSING
  end.

(** ** index.ts: one socket per request, headers first *)

Module Relay.

Record session : Type := {
  remoteWs : ready_state;
  audioBuffer : list (list Z);
  endTimers : nat                (* pending setTimeout(() => res.end(), 8000) *)
}.

Inductive event : Type :=
  | ws_open
  | ws_message (data : ws_data)
  | ws_error
  | req_close                    (* the SSE client went away *)
  | ws_closed
  | end_timer
  | tick.

(** [app.get('/stream', ...)] up to the registration of the handlers. *)
Definition stream_request (wsURL : option string) : option session * list call :=
  match wsURL with
  | None | Some EmptyString => (None, [res_status_send 400])
  | Some _ =>
      (Some {| remoteWs := CONNECTING; audioBuffer := []; endTimers := 0 |},
       [res_writeHead 200; new_WebSocket 0])
  end.

Definition handle `{Mp3EncoderLib} (filterState : number) (s : session) (ev : event)
  : number * session * list call :=
  match ev with
  | ws_open =>
      (filterState,
       {| remoteWs := OPEN; audioBuffer := audioBuffer s; endTimers := endTimers s |},
       [])
  | ws_message data =>
      let '(filterState', audioBuffer', calls) :=
        on_message filterState (audioBuffer s) data in
      (filterState',
       {| remoteWs := remoteWs s; audioBuffer := audioBuffer'; endTimers := endTimers s |},
       calls)
  | ws_error =>
      (filterState, s, [res_write (error "Erro no WebSocket remoto")])
  | req_close =>
      (filterState,
       {| remoteWs := close_socket (remoteWs s); audioBuffer := audioBuffer s;
          endTimers := endTimers s |},
       [ws_close 0])
  | ws_closed =>
      (filterState,
       {| remoteWs := CLOSED; audioBuffer := audioBuffer s;
          endTimers := S (endTimers s) |},
       [])
  | end_timer =>
      match endTimers s with
      | O => (filterState, s, [])
      | S n =>
          (filterState,
           {| remoteWs := remoteWs s; audioBuffer := audioBuffer s; endTimers := n |},
           [res_end])
      end
  | tick =>
      let '(audioBuffer', calls) := on_tick (audioBuffer s) in
      (filterState,
       {| remoteWs := remoteWs s; audioBuffer := audioBuffer'; endTimers := endTimers s |},
       calls)
  end.

(** A run of one session: the events it received, each followed by the
    calls its handler made. *)
Fixpoint run `{Mp3EncoderLib} (filterState : number) (s : session) (evs : list event)
  : number * session * list (event + call) :=
  match evs with
  | [] => (filterState, s, [])
  | ev :: rest =>
      let '(filterState', s', calls) := handle filterState s ev in
      let '(filterState'', s'', tr) := run filterState' s' rest in
      (filterState'', s'', inl ev :: map inr calls ++ tr)
  end.

(** The process: the module-level [filterState] and the live sessions. *)
Record process : Type := {
  filterState : number;
  sessions : list session
}.

Definition process_step `{Mp3EncoderLib} (p : process) (sid : nat) (ev : event)
  : process * list call :=
  match sessions p !! sid with
  | Some s =>
      let '(filterState', s', calls) := handle (filterState p) s ev in
      ({| filterState := filterState'; sessions := <[sid := s']> (sessions p) |},
       calls)
  | None => (p, [])
  end.

Fixpoint process_run `{Mp3EncoderLib} (p : process) (evs : list (nat * event))
  : process :=
  match evs with
  | [] => p
  | (sid, ev) :: rest => process_run (fst (process_step p sid ev)) rest
  end.

End Relay.

(** ** The variant with the probe and the retries

    [connectWebSocket] probes the address over HTTP, and on anything but a
    404 or a retried 400 opens a socket with its own buffer, connection
    timeout, interval and [req.on('close')] handler.  A retry calls
    [connectWebSocket] again from a timer, so one request can own several
    sockets: connection [k] is the [k]-th one opened. *)

Module RetryRelay.

Record connection : Type := {
  remoteWs : ready_state;
  audioBuffer : list (list Z);
  connectionTimeout : bool        (* armed and not yet fired or cleared *)
}.

Record session : Type := {
  retryCount : nat;
  MAX_RETRIES : nat;
  wsURL_ok : bool;                (* [new WebSocket(wsURL)] accepts the URL *)
  fetching : nat;                 (* probes awaited *)
  retryTimers : nat;              (* pending setTimeout(connectWebSocket) *)
  connections : list connection
}.

Inductive probe : Type :=
  | status (code : Z)
  | rejected.                     (* [fetch] threw *)

(** [error.code]: a number or something else. *)
Inductive error_code : Type :=
  | code_number (n : Z)
  | code_other.

Inductive event : Type :=
  | fetch_done (r : probe)
  | retry_timer
  | connection_timer (k : nat)
  | ws_open (k : nat)
  | ws_error (k : nat) (code : error_code)
  | ws_closed (k : nat) (code : Z) (reason : string)
  | ws_message (k : nat) (data : ws_data)
  | req_close
  | tick (k : nat).

Definition set_fetching (n : nat) (s : session) : session :=
  {| retryCount := retryCount s; MAX_RETRIES := MAX_RETRIES s;
     wsURL_ok := wsURL_ok s; fetching := n; retryTimers := retryTimers s;
     connections := connections s |}.

Definition set_retryTimers (n : nat) (s : session) : session :=
  {| retryCount := retryCount s; MAX_RETRIES := MAX_RETRIES s;
     wsURL_ok := wsURL_ok s; fetching := fetching s; retryTimers := n;
     connections := connections s |}.

Definition set_connections (cs : list connection) (s : session) : session :=
  {| retryCount := retryCount s; MAX_RETRIES := MAX_RETRIES s;
     wsURL_ok := wsURL_ok s; fetching := fetching s;
     retryTimers := retryTimers s; connections := cs |}.

(** [retryCount++; setTimeout(connectWebSocket, RETRY_DELAY)] *)
Definition retry (s : session) : session * list call :=
  ({| retryCount := S (retryCount s); MAX_RETRIES := MAX_RETRIES s;
      wsURL_ok := wsURL_ok s; fetching := fetching s;
      retryTimers := S (retryTimers s); connections := connections s |},
   [setTimeout_connectWebSocket]).

Definition can_retry (s : session) : bool := (retryCount s <? MAX_RETRIES s)%nat.

(** The call of [connectWebSocket] up to its [await fetch(...)]. *)
Definition connectWebSocket (s : session) : session * list call :=
  (set_fetching (S (fetching s)) s, [fetch_probe]).

(** The [catch] of [connectWebSocket]. *)
Definition catch_block (s : session) : session * list call :=
  if can_retry s then retry s
  else (s, [res_status_json 503 "Connection failed after max retries"]).

(** [new WebSocket(wsURL)] and the registrations that follow it. *)
Definition open_socket (s : session) : session * list call :=
  if wsURL_ok s then
    let k := length (connections s) in
    (set_connections
       (connections s ++
        [{| remoteWs := CONNECTING; audioBuffer := []; connectionTimeout := true |}])
       s,
     [new_WebSocket k])
  else catch_block s.

(** [connectWebSocket] after the [await]. *)
Definition after_fetch (s : session) (r : probe) : session * list call :=
  match r with
  | rejected => catch_block s
  | status code =>
      if code =? 404 then
        (s, [res_status_json 404 "WebSocket endpoint not found"])
      else if (code =? 400) && can_retry s then retry s
      else open_socket s
  end.

Definition includes (s needle : string) : bool :=
  match String.index 0 needle s with
  | Some _ => true
  | None => false
  end.

Definition set_connection (k : nat) (c : connection) (s : session) : session :=
  set_connections (<[k := c]> (connections s)) s.

Definition on_error (s : session) (k : nat) (c : connection) (code : error_code)
  : session * list call :=
  match code with
  | code_number n =>
      if (n =? 400) && can_retry s then retry s
      else if n =? 404 then
        (set_connection k
           {| remoteWs := close_socket (remoteWs c); audioBuffer := audioBuffer c;
              connectionTimeout := connectionTimeout c |} s,
         [res_status_json 404 "WebSocket resource not found"; ws_close k])
      else (s, [res_status_json 502 "WebSocket connection failed"])
  | code_other => (s, [res_status_json 502 "WebSocket connection failed"])
  end.

Definition on_closed (s : session) (reason : string) : session * list call :=
  let statusCode :=
    if includes reason "404" then 404
    else if includes reason "400" then 400
    else 503 in
  if (statusCode =? 400) && can_retry s then retry s
  else if statusCode =? 404 then
    (s, [res_status_json 404 "WebSocket resource not found"])
  else (s, [res_status_json statusCode "WebSocket connection failed"]).

(** Every [req.on('close')] handler registered so far runs, in order. *)
Definition on_req_close (s : session) : session * list call :=
  (set_connections
     (map (fun c => {| remoteWs := close_socket (remoteWs c);
                       audioBuffer := audioBuffer c;
                       connectionTimeout := connectionTimeout c |})
          (connections s))
     s,
   map ws_close (seq 0 (length (connections s)))).

(** A handler that leaves [filterState] alone. *)
Definition keep (filterState : number) (r : session * list call)
  : number * session * list call :=
  (filterState, fst r, snd r).

Definition handle `{Mp3EncoderLib} (filterState : number) (s : session) (ev : event)
  : number * session * list call :=
  match ev with
  | fetch_done r =>
      match fetching s with
      | O => (filterState, s, [])
      | S n => keep filterState (after_fetch (set_fetching n s) r)
      end
  | retry_timer =>
      match retryTimers s with
      | O => (filterState, s, [])
      | S n => keep filterState (connectWebSocket (set_retryTimers n s))
      end
  | connection_timer k =>
      match connections s !! k with
      | Some c =>
          if connectionTimeout c then
            if is_OPEN (remoteWs c) then
              (filterState,
               set_connection k
                 {| remoteWs := remoteWs c; audioBuffer := audioBuffer c;
                    connectionTimeout := false |} s,
               [])
            else
              (filterState,
               set_connection k
                 {| remoteWs := close_socket (remoteWs c);
                    audioBuffer := audioBuffer c; connectionTimeout := false |} s,
               [res_status_json 504 "WebSocket connection timeout"; ws_close k])
          else (filterState, s, [])
      | None => (filterState, s, [])
      end
  | ws_open k =>
      match connections s !! k with
      | Some c =>
          (filterState,
           set_connection k
             {| remoteWs := OPEN; audioBuffer := audioBuffer c;
                connectionTimeout := false |} s,
           [res_writeHead 200])
      | None => (filterState, s, [])
      end
  | ws_error k code =>
      match connections s !! k with
      | Some c => keep filterState (on_error s k c code)
      | None => (filterState, s, [])
      end
  | ws_closed k code reason =>
      match connections s !! k with
      | Some c =>
          keep filterState
            (on_closed
               (set_connection k
                  {| remoteWs := CLOSED; audioBuffer := audioBuffer c;
                     connectionTimeout := connectionTimeout c |} s)
               reason)
      | None => (filterState, s, [])
      end
  | ws_message k data =>
      match connections s !! k with
      | Some c =>
          let '(filterState', audioBuffer', calls) :=
            on_message filterState (audioBuffer c) data in
          (filterState',
           set_connection k
             {| remoteWs := remoteWs c; audioBuffer := audioBuffer';
                connectionTimeout := connectionTimeout c |} s,
           calls)
      | None => (filterState, s, [])
      end
  | req_close => keep filterState (on_req_close s)
  | tick k =>
      match connections s !! k with
      | Some c =>
          let '(audioBuffer', calls) := on_tick (audioBuffer c) in
          (filterState,
           set_connection k
             {| remoteWs := remoteWs c; audioBuffer := audioBuffer';
                connectionTimeout := connectionTimeout c |} s,
           calls)
      | None => (filterState, s, [])
      end
  end.

(** [app.get('/stream', ...)]: the guard and the first [connectWebSocket()]. *)
Definition stream_request (url : option string) (url_ok : bool)
  : option session * list call :=
  match url with
  | None | Some EmptyString => (None, [res_status_send 400])
  | Some _ =>
      let '(s, calls) :=
        connectWebSocket
          {| retryCount := 0; MAX_RETRIES := 30; wsURL_ok := url_ok;
             fetching := 0; retryTimers := 0; connections := [] |} in
      (Some s, calls)
  end.

Fixpoint run `{Mp3EncoderLib} (filterState : number) (s : session) (evs : list event)
  : number * session * list (event + call) :=
  match evs with
  | [] => (filterState, s, [])
  | ev :: rest =>
      let '(filterState', s', calls) := handle filterState s ev in
      let '(filterState'', s'', tr) := run filterState' s' rest in
      (filterState'', s'', inl ev :: map inr calls ++ tr)
  end.

End RetryRelay.

(** ** A test double for the encoder

    One header byte per block that holds samples, two trailing bytes on
    [flush]; the state counts the samples seen. *)

Definition test_encoder : Mp3EncoderLib := {|
  encoder := nat;
  Mp3Encoder := fun _ _ _ => 0%nat;
  encodeBuffer := fun st block =>
    Ok ((st + length block)%nat, if (0 <? length block)%nat then [xff] else []);
  flush := fun st => Ok [xff; xfb]
|}.

(** A second test double: an encoder that refuses every block. *)
Definition failing_encoder : Mp3EncoderLib := {|
  encoder := unit;
  Mp3Encoder := fun _ _ _ => tt;
  encodeBuffer := fun _ _ => Throw EncoderError;
  flush := fun _ => Throw EncoderError
|}.

(** ** Closed forms of the two array loops, for the proofs *)

(** The samples of a buffer, pair by pair; a trailing byte is left out. *)
Fixpoint samples_of (buf : list byte) : list Z :=
  match buf with
  | lo :: hi :: rest => wrap16 (byte_to_Z lo + 256 * byte_to_Z hi) :: samples_of rest
  | _ => []
  end.

(** The filter as a recursion on the samples. *)
Fixpoint filter_run (alpha : number) (data : list Z) (previous : number)
  : list Z * number :=
  match data with
  | [] => ([], previous)
  | x :: rest =>
      let filteredSample := filter_sample alpha x previous in
      let '(filtered, lastValue) := filter_run alpha rest filteredSample in
      (Int16 (Math_round filteredSample) :: filtered, lastValue)
  end.

(** The store conversion the specification asks for instead of [Int16]. *)
Definition Clamp16 (r : option Z) : Z :=
  match r with
  | Some n => clamp16 n
  | None => 0
  end.

(** The block loop of [convertChunksToMp3] as a run over the list of its
    blocks. *)
Fixpoint block_list (pcmData : list Z) (n i : nat) : list (list Z) :=
  match n with
  | O => []
  | S n' => subarray pcmData i (i + blockSize) :: block_list pcmData n' (i + blockSize)
  end.

Fixpoint feed `{Mp3EncoderLib} (mp3Encoder : encoder) (blocks : list (list Z))
    (mp3Data : list (list byte)) : result (encoder * list (list byte)) :=
  match blocks with
  | [] => Ok (mp3Encoder, mp3Data)
  | block :: rest =>
      try r <- encodeBuffer mp3Encoder block;
      let '(mp3Encoder', mp3buf) := r in
      feed mp3Encoder' rest
        (if (0 <? length mp3buf)%nat then mp3Data ++ [mp3buf] else mp3Data)
  end.

(** What the flush properties ask of the library: a fresh encoder that is
    fed blocks holding at least one sample and then flushed does not throw
    and emits at least one byte, from [encodeBuffer] or from [flush]. *)
Definition encoder_emits `{Mp3EncoderLib} : Prop :=
  forall blocks : list (list Z),
    concat blocks <> [] ->
    exists (mp3Encoder' : encoder) (mp3Data : list (list byte)) (mp3Final : list byte),
      feed (Mp3Encoder channels sampleRate bitRate) blocks [] = Ok (mp3Encoder', mp3Data)
      /\ flush mp3Encoder' = Ok mp3Final
      /\ (mp3Data <> [] \/ mp3Final <> []).

(** ** Traces *)

Definition calls_of {event : Type} (tr : list (event + call)) : list call :=
  omap (fun x => match x with inr c => Some c | inl _ => None end) tr.

(** Every [res.writeHead] of the trace comes after some ['open'] event;
    [opened] tells whether one came before the trace. *)
Fixpoint headers_after_open {event : Type} (is_open : event -> bool)
    (opened : bool) (tr : list (event + call)) : bool :=
  match tr with
  | [] => true
  | inl ev :: rest => headers_after_open is_open (opened || is_open ev) rest
  | inr (res_writeHead _) :: rest => opened && headers_after_open is_open opened rest
  | inr _ :: rest => headers_after_open is_open opened rest
  end.

Definition no_writeHead (calls : list call) : Prop :=
  forall status : Z, res_writeHead status ∉ calls.

(** The calls made after the first disconnect of the trace. *)
Fixpoint after_disconnect {event : Type} (is_disconnect : event -> bool)
    (tr : list (event + call)) : list call :=
  match tr with
  | [] => []
  | inl ev :: rest =>
      if is_disconnect ev then calls_of rest else after_disconnect is_disconnect rest
  | inr _ :: rest => after_disconnect is_disconnect rest
  end.

Definition Relay_is_open (ev : Relay.event) : bool :=
  match ev with
  | Relay.ws_open => true
  | _ => false
  end.

Definition Relay_is_disconnect (ev : Relay.event) : bool :=
  match ev with
  | Relay.req_close => true
  | _ => false
  end.

Definition RetryRelay_is_open (ev : RetryRelay.event) : bool :=
  match ev with
  | RetryRelay.ws_open _ => true
  | _ => false
  end.

(** One round of a probe answered 400 and the retry timer that follows. *)
Definition transient_round : list RetryRelay.event :=
  [RetryRelay.fetch_done (RetryRelay.status 400); RetryRelay.retry_timer].

Fixpoint transient_rounds (n : nat) : list RetryRelay.event :=
  match n with
  | O => []
  | S n' => transient_round ++ transient_rounds n'
  end.

Definition is_terminal_response (c : call) : bool :=
  match c with
  | res_status_json _ _ | res_status_send _ | res_end => true
  | _ => false
  end.

Definition is_retry (c : call) : bool :=
  match c with
  | setTimeout_connectWebSocket => true
  | _ => false
  end.

Definition is_socket_open (c : call) : bool :=
  match c with
  | new_WebSocket _ => true
  | _ => false
  end.

Fixpoint count_calls (p : call -> bool) (calls : list call) : nat :=
  match calls with
  | [] => 0
  | c :: rest => ((if p c then 1 else 0) + count_calls p rest)%nat
  end.

(** The session after [n] rounds of a retried probe. *)
Definition after_rounds (n : nat) (s : RetryRelay.session) : RetryRelay.session :=
  {| RetryRelay.retryCount := (RetryRelay.retryCount s + n)%nat;
     RetryRelay.MAX_RETRIES := RetryRelay.MAX_RETRIES s;
     RetryRelay.wsURL_ok := RetryRelay.wsURL_ok s;
     RetryRelay.fetching := RetryRelay.fetching s;
     RetryRelay.retryTimers := RetryRelay.retryTimers s;
     RetryRelay.connections := RetryRelay.connections s |}.

(** Frames for the examples: the samples 32767 and 100. *)
Definition frame_loud : list byte := [xff; x7f].
Definition frame_soft : list byte := [x64; x00].

(** ** Accounting over runs *)

Definition is_Ok {A : Type} (r : result A) : bool :=
  match r with
  | Ok _ => true
  | Throw _ => false
  end.

(** The batches whose conversion returned: the ones the continuation of
    the tick dropped from the accumulator. *)
Definition cleared_batches `{Mp3EncoderLib} (calls : list call) : list (list (list Z)) :=
  List.filter (fun batch => is_Ok (convertChunksToMp3 batch)) (handed_batches calls).

Definition is_mp3_write (c : call) : bool :=
  match c with
  | res_write (mp3 _) => true
  | _ => false
  end.

Definition is_res_end (c : call) : bool :=
  match c with
  | res_end => true
  | _ => false
  end.

Fixpoint count_where {A : Type} (p : A -> bool) (l : list A) : nat :=
  match l with
  | [] => 0
  | x :: rest => ((if p x then 1 else 0) + count_where p rest)%nat
  end.

Definition Relay_is_tick (ev : Relay.event) : bool :=
  match ev with
  | Relay.tick => true
  | _ => false
  end.

Definition Relay_is_closed (ev : Relay.event) : bool :=
  match ev with
  | Relay.ws_closed => true
  | _ => false
  end.

(** ** Accounting over runs of the variant with retries *)

Definition is_fetch_probe (c : call) : bool :=
  match c with
  | fetch_probe => true
  | _ => false
  end.

(** Nothing pending and no socket: no probe awaited, no retry timer, no
    connection. *)
Definition inert (s : RetryRelay.session) : Prop :=
  RetryRelay.fetching s = 0%nat
  /\ RetryRelay.retryTimers s = 0%nat
  /\ RetryRelay.connections s = [].

Definition is_shut (r : ready_state) : bool :=
  match r with
  | CLOSING | CLOSED => true
  | CONNECTING | OPEN => false
  end.

(** ** The addresses

    [s.replace(pattern, replacement)] with a string pattern replaces the
    first occurrence only. *)
Definition String_replace (s pattern replacement : string) : string :=
  match String.index 0 pattern s with
  | Some n =>
      (String.substring 0 n s ++ replacement
       ++ String.substring (n + String.length pattern)
            (String.length s - (n + String.length pattern)) s)%string
  | None => s
  end.

(** [wsURL1.replace('audracs.com.br', 'vapi.ai')] *)
Definition wsURL_of (wsURL1 : string) : string :=
  String_replace wsURL1 "audracs.com.br" "vapi.ai".

(** [wsURL.replace('ws', 'http')], the address that is probed. *)
Definition probe_address (wsURL : string) : string :=
  String_replace wsURL "ws" "http".

(** * Properties *)

(** ** The model on known values *)

Example base64_Man : base64 [x4d; x61; x6e] = "TWFu"%string.
Proof. reflexivity. Qed.

Example base64_Ma : base64 [x4d; x61] = "TWE="%string.
Proof. reflexivity. Qed.

Example base64_M : base64 [x4d] = "TQ=="%string.
Proof. reflexivity. Qed.

(** [Math.round(2.5)] is 3, [Math.round(-2.5)] is -2 and [Math.round(-0.5)]
    is (minus) zero. *)
Example Math_round_ties :
  Math_round 2.5%float = Some 3
  /\ Math_round (-2.5)%float = Some (-2)
  /\ Math_round (-0.5)%float = Some 0.
Proof. repeat split; vm_compute; reflexivity. Qed.

(** With 32000 Hz and a cutoff of 1000 Hz, alpha is 0.16412389033890668:
    5913186330983170 * 2^-55. *)
Example filter_alpha_value :
  Prim2SF (filter_alpha sampleRate lowPassCutoff)
  = S754_finite false 5913186330983170 (-55).
Proof. vm_compute. reflexivity. Qed.

Example convertPCMToInt16_example :
  convertPCMToInt16 [x01; x00; xff; xff; x00; x80] = Ok [1; -1; -32768]
  /\ convertPCMToInt16 [x01; x00; xff] = Throw RangeError.
Proof. split; reflexivity. Qed.

Example applyLowPassFilter_example :
  (applyLowPassFilter [100; -200; 32767; -32768] sampleRate lowPassCutoff 0%float).1
  = [16; -19; 5362; -896].
Proof. vm_compute. reflexivity. Qed.

(** ** Sixteen-bit values *)

Lemma wrap16_range (n : Z) : int16_range (wrap16 n).
Proof.
  unfold int16_range, wrap16.
  pose proof (Z.mod_pos_bound n 65536 ltac:(lia)) as Hm.
  destruct (32768 <=? n mod 65536) eqn:E; lia.
Qed.

Lemma Int16_range (r : option Z) : int16_range (Int16 r).
Proof.
  destruct r as [n|]; simpl; [apply wrap16_range | unfold int16_range; lia].
Qed.

Lemma byte_to_Z_bounded (b : byte) : 0 <= byte_to_Z b < 256.
Proof.
  unfold byte_to_Z. pose proof (Byte.to_N_bounded b). lia.
Qed.

Lemma byte_of_to_Z (b : byte) : byte_of_Z (byte_to_Z b) = b.
Proof.
  unfold byte_of_Z. pose proof (byte_to_Z_bounded b) as Hb.
  rewrite Z.mod_small by lia.
  unfold byte_to_Z. rewrite N2Z.id, Byte.of_to_N. reflexivity.
Qed.

Lemma byte_of_Z_mod (z : Z) : byte_of_Z (z mod 256) = byte_of_Z z.
Proof.
  unfold byte_of_Z. rewrite Z.mod_mod by lia. reflexivity.
Qed.

(** Writing back the value read from the byte pair [lo, hi] gives the pair. *)
Lemma setInt16_getInt16 (lo hi : byte) :
  setInt16 (wrap16 (byte_to_Z lo + 256 * byte_to_Z hi)) = [lo; hi].
Proof.
  pose proof (byte_to_Z_bounded lo) as Hlo.
  pose proof (byte_to_Z_bounded hi) as Hhi.
  unfold setInt16, wrap16.
  rewrite (Z.mod_small (byte_to_Z lo + 256 * byte_to_Z hi)) by lia.
  destruct (32768 <=? byte_to_Z lo + 256 * byte_to_Z hi) eqn:E.
  - f_equal; [|f_equal].
    + rewrite <- byte_of_Z_mod.
      replace ((byte_to_Z lo + 256 * byte_to_Z hi - 65536) mod 256)
        with (byte_to_Z lo) by (Z.div_mod_to_equations; lia).
      apply byte_of_to_Z.
    + rewrite <- byte_of_Z_mod.
      replace (((byte_to_Z lo + 256 * byte_to_Z hi - 65536) / 256) mod 256)
        with (byte_to_Z hi) by (Z.div_mod_to_equations; lia).
      apply byte_of_to_Z.
  - f_equal; [|f_equal].
    + rewrite <- byte_of_Z_mod.
      replace ((byte_to_Z lo + 256 * byte_to_Z hi) mod 256)
        with (byte_to_Z lo) by (Z.div_mod_to_equations; lia).
      apply byte_of_to_Z.
    + replace ((byte_to_Z lo + 256 * byte_to_Z hi) / 256)
        with (byte_to_Z hi) by (Z.div_mod_to_equations; lia).
      apply byte_of_to_Z.
Qed.

(** ** convertPCMToInt16 *)

Section Decoder.

Lemma getInt16_at (pre rest : list byte) (lo hi : byte) (i : nat) :
  length pre = (i * 2)%nat ->
  getInt16 (pre ++ lo :: hi :: rest) (i * 2)
  = Ok (wrap16 (byte_to_Z lo + 256 * byte_to_Z hi)).
Proof.
  intros Hpre. unfold getInt16.
  rewrite lookup_app_r by lia.
  replace (i * 2 - length pre)%nat with 0%nat by lia.
  rewrite lookup_app_r by lia.
  replace (S (i * 2) - length pre)%nat with 1%nat by lia.
  reflexivity.
Qed.

Lemma getInt16_last (pre : list byte) (b : byte) (i : nat) :
  length pre = (i * 2)%nat ->
  getInt16 (pre ++ [b]) (i * 2) = Throw RangeError.
Proof.
  intros Hpre. unfold getInt16.
  rewrite lookup_app_r by lia.
  replace (i * 2 - length pre)%nat with 0%nat by lia.
  rewrite (lookup_ge_None_2 _ (S (i * 2))); [reflexivity|].
  rewrite length_app. simpl. lia.
Qed.

(** The loop on a buffer whose remaining part holds [n] whole pairs. *)
Lemma convert_loop_even (n : nat) :
  forall (pre rest : list byte) (i : nat) (arr : list Z),
    length pre = (i * 2)%nat ->
    length rest = (n * 2)%nat ->
    length arr = (i + n)%nat ->
    convert_loop (pre ++ rest) n i arr = Ok (take i arr ++ samples_of rest).
Proof.
  induction n as [|n IH]; intros pre rest i arr Hpre Hrest Harr.
  - destruct rest; [|discriminate]. simpl.
    rewrite take_ge by lia. rewrite app_nil_r. reflexivity.
  - destruct rest as [|lo [|hi rest]]; try discriminate.
    cbn [convert_loop]. rewrite getInt16_at by assumption. cbn [rbind].
    replace (pre ++ lo :: hi :: rest) with ((pre ++ [lo; hi]) ++ rest)
      by (rewrite <- app_assoc; reflexivity).
    rewrite IH.
    + cbn [samples_of].
      rewrite (take_S_r _ _ (wrap16 (byte_to_Z lo + 256 * byte_to_Z hi))).
      * rewrite take_insert_ge by lia. rewrite <- app_assoc. reflexivity.
      * apply list_lookup_insert_eq. lia.
    + rewrite length_app. simpl. lia.
    + simpl in Hrest. lia.
    + rewrite length_insert. lia.
Qed.

(** The loop on a buffer whose remaining part ends in half a sample. *)
Lemma convert_loop_odd (n : nat) :
  forall (pre rest : list byte) (i : nat) (arr : list Z),
    length pre = (i * 2)%nat ->
    length rest = S (n * 2) ->
    convert_loop (pre ++ rest) (S n) i arr = Throw RangeError.
Proof.
  induction n as [|n IH]; intros pre rest i arr Hpre Hrest.
  - destruct rest as [|b [|? ?]]; try discriminate.
    cbn [convert_loop]. rewrite getInt16_last by assumption. reflexivity.
  - destruct rest as [|lo [|hi rest]]; try discriminate.
    cbn [convert_loop]. rewrite getInt16_at by assumption. cbn [rbind].
    replace (pre ++ lo :: hi :: rest) with ((pre ++ [lo; hi]) ++ rest)
      by (rewrite <- app_assoc; reflexivity).
    apply IH.
    + rewrite length_app. simpl. lia.
    + simpl in Hrest. lia.
Qed.

Lemma convertPCMToInt16_even (buf : list byte) (n : nat) :
  length buf = (n * 2)%nat -> convertPCMToInt16 buf = Ok (samples_of buf).
Proof.
  intros Hlen. unfold convertPCMToInt16.
  replace ((length buf + 1) / 2)%nat with n
    by (rewrite Hlen; apply Nat.div_unique with 1%nat; lia).
  replace (length buf / 2)%nat with n
    by (rewrite Hlen; apply Nat.div_unique with 0%nat; lia).
  rewrite (convert_loop_even n [] buf 0%nat); first reflexivity; try done.
  rewrite length_replicate. lia.
Qed.

Lemma convertPCMToInt16_odd (buf : list byte) (n : nat) :
  length buf = S (n * 2) -> convertPCMToInt16 buf = Throw RangeError.
Proof.
  intros Hlen. unfold convertPCMToInt16.
  replace ((length buf + 1) / 2)%nat with (S n)
    by (rewrite Hlen; apply Nat.div_unique with 0%nat; lia).
  apply (convert_loop_odd n [] buf 0%nat); done.
Qed.

Lemma samples_of_length (n : nat) :
  forall buf : list byte, length buf = (n * 2)%nat -> length (samples_of buf) = n.
Proof.
  induction n as [|n IH]; intros buf Hlen.
  - destruct buf; [reflexivity | discriminate].
  - destruct buf as [|lo [|hi rest]]; try discriminate.
    simpl. f_equal. apply IH. simpl in Hlen. lia.
Qed.

Lemma samples_of_range (buf : list byte) (n : nat) :
  length buf = n -> Forall int16_range (samples_of buf).
Proof.
  revert buf. induction n as [n IH] using lt_wf_ind. intros buf Hlen.
  destruct buf as [|lo [|hi rest]]; try (constructor; fail).
  simpl. constructor; [apply wrap16_range|].
  apply (IH (length rest)); [simpl in Hlen; lia | reflexivity].
Qed.

Lemma encodePCM_samples_of (n : nat) :
  forall buf : list byte, length buf = (n * 2)%nat -> encodePCM (samples_of buf) = buf.
Proof.
  induction n as [|n IH]; intros buf Hlen.
  - destruct buf; [reflexivity | discriminate].
  - destruct buf as [|lo [|hi rest]]; try discriminate.
    unfold encodePCM. cbn [samples_of map concat].
    rewrite setInt16_getInt16. simpl. do 2 f_equal.
    apply IH. simpl in Hlen. lia.
Qed.

End Decoder.

(** C7. PCM round trip: a buffer of even byte length decodes without an
    exception into [byteLength / 2] samples, each in [-32768, 32767], and
    writing the samples back as little-endian 16-bit values gives the
    original bytes. *)
Theorem convertPCMToInt16_roundtrip (buf : list byte) :
  Nat.Even (length buf) ->
  exists samples : list Z,
    convertPCMToInt16 buf = Ok samples
    /\ length samples = (length buf / 2)%nat
    /\ Forall int16_range samples
    /\ encodePCM samples = buf.
Proof.
  intros [n Hn]. assert (Hlen : length buf = (n * 2)%nat) by lia.
  exists (samples_of buf). split; [|split; [|split]].
  - apply (convertPCMToInt16_even buf n Hlen).
  - rewrite (samples_of_length n buf Hlen), Hlen.
    apply Nat.div_unique with 0%nat; lia.
  - apply (samples_of_range buf (length buf)). reflexivity.
  - apply (encodePCM_samples_of n buf Hlen).
Qed.

Lemma convertPCMToInt16_roundtrip_witness :
  exists samples : list Z,
    convertPCMToInt16 [x01; x00; xff; xff; x00; x80] = Ok samples
    /\ length samples = 3%nat
    /\ Forall int16_range samples
    /\ encodePCM samples = [x01; x00; xff; xff; x00; x80].
Proof.
  apply (convertPCMToInt16_roundtrip [x01; x00; xff; xff; x00; x80]).
  exists 3%nat. reflexivity.
Defined.

(** ** applyLowPassFilter *)

Section Filter.

Variable alpha : number.

Lemma filter_loop_run (rest : list Z) :
  forall (pre filtered : list Z) (previous : number),
    length filtered = length (pre ++ rest) ->
    filter_loop alpha (pre ++ rest) (length rest) (length pre) filtered previous
    = (take (length pre) filtered ++ (filter_run alpha rest previous).1,
       (filter_run alpha rest previous).2).
Proof.
  induction rest as [|x rest IH]; intros pre filtered previous Hlen.
  - simpl. rewrite app_nil_r in Hlen.
    rewrite take_ge by lia. rewrite app_nil_r. reflexivity.
  - cbn [filter_loop length].
    rewrite lookup_app_r by lia. rewrite Nat.sub_diag. cbn [lookup list_lookup].
    replace (pre ++ x :: rest) with ((pre ++ [x]) ++ rest)
      by (rewrite <- app_assoc; reflexivity).
    replace (S (length pre)) with (length (pre ++ [x]))
      by (rewrite length_app; simpl; lia).
    rewrite IH.
    + cbn [filter_run].
      destruct (filter_run alpha rest (filter_sample alpha x previous))
        as [out last] eqn:E.
      cbn [fst snd]. f_equal.
      replace (length (pre ++ [x])) with (S (length pre))
        by (rewrite length_app; simpl; lia).
      rewrite (take_S_r _ _ (Int16 (Math_round (filter_sample alpha x previous)))).
      * rewrite take_insert_ge by lia. rewrite <- app_assoc. reflexivity.
      * apply list_lookup_insert_eq. rewrite Hlen, length_app. simpl. lia.
    + rewrite length_insert, Hlen, <- app_assoc. reflexivity.
Qed.

Lemma filter_run_app (A B : list Z) :
  forall previous : number,
    filter_run alpha (A ++ B) previous
    = ((filter_run alpha A previous).1
         ++ (filter_run alpha B (filter_run alpha A previous).2).1,
       (filter_run alpha B (filter_run alpha A previous).2).2).
Proof.
  induction A as [|x A IH]; intros previous.
  - simpl. destruct (filter_run alpha B previous). reflexivity.
  - cbn [app filter_run]. rewrite IH.
    destruct (filter_run alpha A (filter_sample alpha x previous)) as [fa la].
    reflexivity.
Qed.

Lemma filter_run_length (data : list Z) :
  forall previous : number, length (filter_run alpha data previous).1 = length data.
Proof.
  induction data as [|x data IH]; intros previous; [reflexivity|].
  cbn [filter_run]. specialize (IH (filter_sample alpha x previous)).
  destruct (filter_run alpha data (filter_sample alpha x previous)).
  simpl in *. lia.
Qed.

Lemma filter_run_range (data : list Z) :
  forall previous : number, Forall int16_range (filter_run alpha data previous).1.
Proof.
  induction data as [|x data IH]; intros previous; [constructor|].
  cbn [filter_run]. specialize (IH (filter_sample alpha x previous)).
  destruct (filter_run alpha data (filter_sample alpha x previous)).
  simpl in *. constructor; [apply Int16_range | assumption].
Qed.

(** [filter_y] does not look past the index it is asked for. *)
Lemma filter_y_cons (x : Z) (data : list Z) (carry : number) (n : nat) :
  filter_y alpha (x :: data) carry (S n)
  = filter_y alpha data (filter_sample alpha x carry) n.
Proof.
  induction n as [|n IH]; [reflexivity|].
  change (filter_y alpha (x :: data) carry (S (S n)))
    with (match (x :: data) !! S n with
          | Some x' => filter_sample alpha x' (filter_y alpha (x :: data) carry (S n))
          | None => filter_y alpha (x :: data) carry (S n)
          end).
  rewrite IH. reflexivity.
Qed.

Lemma filter_run_lookup (data : list Z) :
  forall (previous : number) (i : nat) (x : Z),
    data !! i = Some x ->
    (filter_run alpha data previous).1 !! i
    = Some (Int16 (Math_round
                     (filter_sample alpha x (filter_y alpha data previous i)))).
Proof.
  induction data as [|x0 data IH]; intros previous i x Hx; [discriminate|].
  cbn [filter_run]. specialize (IH (filter_sample alpha x0 previous)).
  destruct (filter_run alpha data (filter_sample alpha x0 previous)) as [out last].
  destruct i as [|i].
  - injection Hx as ->. reflexivity.
  - cbn [fst] in *. rewrite filter_y_cons. apply (IH i x Hx).
Qed.

End Filter.

Lemma applyLowPassFilter_run (data : list Z) (sampleRate cutoff prevValue : number) :
  applyLowPassFilter data sampleRate cutoff prevValue
  = filter_run (filter_alpha sampleRate cutoff) data prevValue.
Proof.
  unfold applyLowPassFilter.
  rewrite (filter_loop_run _ data [] _ prevValue).
  - simpl. destruct (filter_run _ data prevValue); reflexivity.
  - rewrite length_replicate. reflexivity.
Qed.

(** C1. Filter continuity: filtering [A] with carry [s], then [B] with the
    unrounded last value the first call returned, gives element for element
    the rounded output of filtering [A ++ B] in one call with carry [s],
    and the same last value. *)
Theorem applyLowPassFilter_chunks (A B : list Z) (sampleRate cutoff s : number) :
  let first := applyLowPassFilter A sampleRate cutoff s in
  let second := applyLowPassFilter B sampleRate cutoff first.2 in
  applyLowPassFilter (A ++ B) sampleRate cutoff s = (first.1 ++ second.1, second.2).
Proof.
  cbv zeta. rewrite !applyLowPassFilter_run. apply filter_run_app.
Qed.

(** C4, as the code has it.  Each output sample is
    [round(alpha x[n] + (1 - alpha) y[n-1])] stored into an [Int16Array]:
    taken modulo 2^16 into the signed range, not saturated.  So every
    emitted sample lies in [-32768, 32767], and there are as many as
    inputs. *)
Theorem applyLowPassFilter_output (data : list Z) (sampleRate cutoff s : number) :
  let alpha := filter_alpha sampleRate cutoff in
  let filtered := (applyLowPassFilter data sampleRate cutoff s).1 in
  length filtered = length data
  /\ Forall int16_range filtered
  /\ forall (i : nat) (x : Z),
       data !! i = Some x ->
       filtered !! i
       = Some (Int16 (Math_round (filter_sample alpha x (filter_y alpha data s i)))).
Proof.
  cbv zeta. rewrite applyLowPassFilter_run. split; [|split].
  - apply filter_run_length.
  - apply filter_run_range.
  - intros i x Hx. apply filter_run_lookup. exact Hx.
Qed.

(** C4 as stated fails: with carry 100000 and the sample 32767 the
    unrounded output is about 88965.46, which the array stores as
    88965 - 65536 = 23429, while saturation would give 32767. *)
Lemma applyLowPassFilter_not_clamped :
  exists (data : list Z) (s : number) (i : nat) (x : Z),
    data !! i = Some x
    /\ (applyLowPassFilter data sampleRate lowPassCutoff s).1 !! i = Some 23429
    /\ Clamp16 (Math_round
                  (filter_sample (filter_alpha sampleRate lowPassCutoff) x
                     (filter_y (filter_alpha sampleRate lowPassCutoff) data s i)))
       = 32767.
Proof.
  exists [32767], 100000%float, 0%nat, 32767.
  split; [reflexivity|]. split; vm_compute; reflexivity.
Qed.

(** ** convertChunksToMp3 *)

Section Concatenation.

Context {A : Type}.

Lemma total_length_concat (chunks : list (list A)) :
  total_length chunks = length (concat chunks).
Proof.
  unfold total_length.
  assert (G : forall (k : nat), foldl (fun sum chunk => (sum + length chunk)%nat) k chunks
                           = (k + length (concat chunks))%nat).
  { induction chunks as [|c chunks IH]; intros k; simpl; [lia|].
    rewrite IH, length_app. lia. }
  apply (G 0%nat).
Qed.

Lemma set_all_concat (chunks : list (list A)) :
  forall (target : list A) (offset : nat),
    length target = (offset + length (concat chunks))%nat ->
    set_all chunks target offset = take offset target ++ concat chunks.
Proof.
  induction chunks as [|c chunks IH]; intros target offset Hlen.
  - simpl in *. rewrite take_ge by lia. rewrite app_nil_r. reflexivity.
  - cbn [set_all concat]. simpl in Hlen. rewrite length_app in Hlen.
    rewrite IH.
    + unfold typed_set. rewrite app_assoc.
      rewrite take_app_length'; [rewrite <- app_assoc; reflexivity|].
      rewrite length_app, length_take. lia.
    + unfold typed_set. rewrite !length_app, length_take, length_drop. lia.
Qed.

Lemma set_all_fresh (chunks : list (list A)) (d : A) :
  set_all chunks (replicate (total_length chunks) d) 0 = concat chunks.
Proof.
  rewrite set_all_concat; [reflexivity|].
  rewrite length_replicate, total_length_concat. reflexivity.
Qed.

End Concatenation.

Lemma base64_nonempty (bs : list byte) : bs <> [] -> base64 bs <> EmptyString.
Proof.
  destruct bs as [|a [|b [|c rest]]]; [congruence| | |]; intros _; discriminate.
Qed.

Section Adapter.

Context `{Mp3EncoderLib}.

Lemma encode_loop_feed (pcmData : list Z) (n : nat) :
  forall (i : nat) (mp3Encoder : encoder) (mp3Data : list (list byte)),
    encode_loop pcmData n i mp3Encoder mp3Data
    = feed mp3Encoder (block_list pcmData n i) mp3Data.
Proof.
  induction n as [|n IH]; intros i mp3Encoder mp3Data; [reflexivity|].
  cbn [encode_loop block_list feed].
  destruct (encodeBuffer mp3Encoder (subarray pcmData i (i + blockSize)))
    as [[mp3Encoder' mp3buf]|e]; [|reflexivity].
  cbn [rbind]. apply IH.
Qed.

(** Every fragment kept by the loop holds at least one byte. *)
Lemma feed_fragments (blocks : list (list Z)) :
  forall (mp3Encoder mp3Encoder' : encoder) (mp3Data mp3Data' : list (list byte)),
    feed mp3Encoder blocks mp3Data = Ok (mp3Encoder', mp3Data') ->
    Forall (fun fragment => fragment <> []) mp3Data ->
    Forall (fun fragment => fragment <> []) mp3Data'.
Proof.
  induction blocks as [|block blocks IH];
    intros mp3Encoder mp3Encoder' mp3Data mp3Data' Hfeed Hdata.
  - injection Hfeed as <- <-. exact Hdata.
  - cbn [feed] in Hfeed.
    destruct (encodeBuffer mp3Encoder block) as [[e1 mp3buf]|e]; [|discriminate].
    cbn [rbind] in Hfeed. apply IH in Hfeed; [exact Hfeed|].
    destruct (0 <? length mp3buf)%nat eqn:E; [|exact Hdata].
    apply Forall_app. split; [exact Hdata|].
    constructor; [|constructor].
    intros ->. simpl in E. discriminate.
Qed.

Lemma block_list_first (pcmData : list Z) :
  pcmData <> [] ->
  concat (block_list pcmData ((length pcmData + blockSize - 1) / blockSize) 0) <> [].
Proof.
  intros Hne.
  destruct pcmData as [|x pcmData]; [congruence|].
  assert (Hn : (1 <= (length (x :: pcmData) + blockSize - 1) / blockSize)%nat).
  { apply Nat.div_le_lower_bound; unfold blockSize; cbn [length]; lia. }
  destruct ((length (x :: pcmData) + blockSize - 1) / blockSize)%nat as [|n]; [lia|].
  cbn [block_list concat]. unfold subarray, blockSize. simpl. discriminate.
Qed.

(** With an encoder that emits, a batch that holds a sample converts to a
    non-empty Base64 text. *)
Lemma convertChunksToMp3_emits (pcmChunks : list (list Z)) :
  encoder_emits ->
  concat pcmChunks <> [] ->
  exists (c : ascii) (s : string), convertChunksToMp3 pcmChunks = Ok (Some (String c s)).
Proof.
  intros Hemits Hne. unfold convertChunksToMp3.
  destruct pcmChunks as [|chunk pcmChunks]; [simpl in Hne; congruence|].
  cbn [length Nat.eqb]. cbv zeta.
  rewrite set_all_fresh, encode_loop_feed.
  destruct (Hemits _ (block_list_first _ Hne)) as (enc' & mp3Data & mp3Final & Hfeed & Hflush & Hsome).
  rewrite Hfeed. cbn [rbind]. rewrite Hflush. cbn [rbind].
  rewrite set_all_fresh.
  assert (Hfrag : Forall (fun fragment : list byte => fragment <> []) mp3Data)
    by (eapply feed_fragments; [exact Hfeed | constructor]).
  assert (Hbytes : concat (if (0 <? length mp3Final)%nat
                           then mp3Data ++ [mp3Final] else mp3Data) <> []).
  { destruct mp3Final as [|b mp3Final]; simpl.
    - destruct Hsome as [Hd|Hf]; [|congruence].
      destruct mp3Data as [|f mp3Data]; [congruence|].
      inversion Hfrag as [|? ? Hf ?]; subst.
      destruct f; [congruence | discriminate].
    - rewrite concat_app. simpl. intros Happ.
      apply app_eq_nil in Happ. destruct Happ as [_ Happ]. discriminate. }
  apply base64_nonempty in Hbytes.
  destruct (base64 _) as [|c s]; [congruence|]. eauto.
Qed.

(** C6. The tick.  With an empty accumulator the tick calls nothing: no
    encoder call, no SSE event.  With chunks that hold at least one sample
    (and an encoder that emits) the tick hands the accumulator to
    [convertChunksToMp3] once, writes exactly one SSE event, an [mp3] one
    with a non-empty Base64 payload, and leaves the accumulator empty. *)
Theorem on_tick_flush (audioBuffer : list (list Z)) :
  encoder_emits ->
  (audioBuffer = [] -> on_tick audioBuffer = ([], []))
  /\ (concat audioBuffer <> [] ->
      exists payload : string,
        payload <> EmptyString
        /\ on_tick audioBuffer
           = ([], [call_convertChunksToMp3 audioBuffer; res_write (mp3 payload)])
        /\ sse_writes (on_tick audioBuffer).2 = [mp3 payload]).
Proof.
  intros Hemits. split.
  - intros ->. reflexivity.
  - intros Hne.
    destruct (convertChunksToMp3_emits audioBuffer Hemits Hne) as (c & s & Hconv).
    exists (String c s). split; [discriminate|].
    assert (Htick : on_tick audioBuffer
                    = ([], [call_convertChunksToMp3 audioBuffer;
                            res_write (mp3 (String c s))])).
    { unfold on_tick, flush_begin.
      destruct audioBuffer as [|chunk rest]; [simpl in Hne; congruence|].
      cbn [length Nat.ltb Nat.leb]. rewrite Hconv. reflexivity. }
    rewrite Htick. split; reflexivity.
Qed.

End Adapter.

Lemma test_encoder_emits : @encoder_emits test_encoder.
Proof.
  intros blocks _.
  assert (G : forall (st : nat) (mp3Data : list (list byte)),
             exists (st' : nat) (mp3Data' : list (list byte)),
               @feed test_encoder st blocks mp3Data = Ok (st', mp3Data')).
  { induction blocks as [|block blocks IH]; intros st mp3Data.
    - exists st, mp3Data. reflexivity.
    - cbn [feed]. simpl. apply IH. }
  destruct (G 0%nat []) as (st' & mp3Data' & Hfeed).
  exists st', mp3Data', [xff; xfb]. split; [exact Hfeed|]. split; [reflexivity|].
  right. discriminate.
Qed.

Lemma on_tick_flush_witness :
  @encoder_emits test_encoder
  /\ ((@nil (list Z) = [] -> @on_tick test_encoder [] = ([], []))
      /\ (concat [[3; 4]; [5]] <> [] ->
          exists payload : string,
            payload <> EmptyString
            /\ @on_tick test_encoder [[3; 4]; [5]]
               = ([], [call_convertChunksToMp3 [[3; 4]; [5]]; res_write (mp3 payload)])
            /\ sse_writes (@on_tick test_encoder [[3; 4]; [5]]).2 = [mp3 payload])).
Proof.
  split; [exact test_encoder_emits|].
  split.
  - apply (@on_tick_flush test_encoder [] test_encoder_emits).
  - apply (@on_tick_flush test_encoder [[3; 4]; [5]] test_encoder_emits).
Defined.

(** ** The event loop of a connection *)

Section EventLoop.

Context `{Mp3EncoderLib}.

Lemma pushed_chunks_app (calls1 calls2 : list call) :
  pushed_chunks (calls1 ++ calls2) = pushed_chunks calls1 ++ pushed_chunks calls2.
Proof. apply omap_app. Qed.

Lemma handed_batches_app (calls1 calls2 : list call) :
  handed_batches (calls1 ++ calls2) = handed_batches calls1 ++ handed_batches calls2.
Proof. apply omap_app. Qed.

Lemma on_message_calls (filterState : number) (audioBuffer : list (list Z))
    (data : ws_data) :
  let '(_, audioBuffer', calls) := on_message filterState audioBuffer data in
  audioBuffer' = audioBuffer ++ pushed_chunks calls /\ handed_batches calls = [].
Proof.
  unfold on_message. destruct data as [bytes|].
  - destruct (convertPCMToInt16 bytes) as [chunk|e].
    + destruct (applyLowPassFilter chunk sampleRate lowPassCutoff filterState).
      split; reflexivity.
    + split; [rewrite app_nil_r|]; reflexivity.
  - split; [rewrite app_nil_r|]; reflexivity.
Qed.

Lemma flush_resume_calls (settled : result (option string))
    (audioBuffer : list (list Z)) :
  pushed_chunks (flush_resume settled audioBuffer).2 = []
  /\ handed_batches (flush_resume settled audioBuffer).2 = [].
Proof.
  destruct settled as [[[|c s]|]|e]; split; reflexivity.
Qed.

(** Between ticks, the accumulator grows by exactly the chunks pushed. *)
Lemma exec_no_tick (turns : list turn) :
  forall (st st' : loop_state) (calls : list call),
    exec st turns = Some (st', calls) ->
    count_ticks turns = 0%nat ->
    l_microtasks st = [] ->
    l_audioBuffer st' = l_audioBuffer st ++ pushed_chunks calls
    /\ handed_batches calls = []
    /\ l_microtasks st' = [].
Proof.
  induction turns as [|t turns IH]; intros st st' calls Hexec Hticks Hquiet.
  - injection Hexec as <- <-. rewrite app_nil_r. auto.
  - cbn [exec] in Hexec.
    destruct t as [data| |]; [| discriminate Hticks |].
    + unfold exec_turn in Hexec. rewrite Hquiet in Hexec.
      pose proof (on_message_calls (l_filterState st) (l_audioBuffer st) data) as Hmsg.
      destruct (on_message (l_filterState st) (l_audioBuffer st) data)
        as [[filterState' audioBuffer'] calls1].
      destruct Hmsg as [Hbuf Hhanded].
      destruct (exec _ turns) as [[st'' calls2]|] eqn:Hrest; [|discriminate].
      injection Hexec as <- <-.
      apply IH in Hrest; [|exact Hticks|reflexivity].
      destruct Hrest as (Hbuf' & Hhanded' & Hquiet').
      cbn [l_audioBuffer] in Hbuf'.
      rewrite pushed_chunks_app, handed_batches_app.
      rewrite Hbuf', Hbuf, Hhanded, Hhanded', <- app_assoc. auto.
    + unfold exec_turn in Hexec. rewrite Hquiet in Hexec. discriminate.
Qed.

(** One flush at most: the chunks pushed split into the batch that the
    flush handed to the encoder and the chunks pushed after it. *)
Lemma exec_one_tick (turns : list turn) :
  forall (st st' : loop_state) (calls : list call),
    exec st turns = Some (st', calls) ->
    (count_ticks turns <= 1)%nat ->
    l_microtasks st = [] ->
    exists batch post : list (list Z),
      l_audioBuffer st ++ pushed_chunks calls = batch ++ post
      /\ (handed_batches calls = [batch] \/ (handed_batches calls = [] /\ batch = []))
      /\ (l_audioBuffer st' = post
          \/ (l_audioBuffer st' = batch ++ post
              /\ (l_microtasks st' <> []
                  \/ exists e, convertChunksToMp3 batch = Throw e))).
Proof.
  induction turns as [|t turns IH]; intros st st' calls Hexec Hticks Hquiet.
  - injection Hexec as <- <-. exists [], (l_audioBuffer st).
    rewrite app_nil_r. auto.
  - cbn [exec] in Hexec. destruct t as [data| |].
    + unfold exec_turn in Hexec. rewrite Hquiet in Hexec.
      pose proof (on_message_calls (l_filterState st) (l_audioBuffer st) data) as Hmsg.
      destruct (on_message (l_filterState st) (l_audioBuffer st) data)
        as [[filterState' audioBuffer'] calls1].
      destruct Hmsg as [Hbuf Hhanded].
      destruct (exec _ turns) as [[st'' calls2]|] eqn:Hrest; [|discriminate].
      injection Hexec as <- <-.
      apply IH in Hrest; [|exact Hticks|reflexivity].
      destruct Hrest as (batch & post & Hsplit & Hbatch & Hleft).
      exists batch, post. cbn [l_audioBuffer] in Hsplit.
      rewrite pushed_chunks_app, handed_batches_app.
      rewrite Hhanded, app_assoc, <- Hbuf. auto.
    + cbn [count_ticks is_tick] in Hticks.
      assert (Hnone : count_ticks turns = 0%nat) by lia.
      unfold exec_turn in Hexec. rewrite Hquiet in Hexec.
      unfold flush_begin in Hexec.
      destruct (l_audioBuffer st) as [|chunk buffer] eqn:Hbuffer.
      * cbn [length Nat.ltb Nat.leb] in Hexec.
        destruct (exec st turns) as [[st'' calls2]|] eqn:Hrest; [|discriminate].
        injection Hexec as <- <-.
        apply exec_no_tick in Hrest; [|exact Hnone|exact Hquiet].
        destruct Hrest as (Hbuf' & Hhanded' & _).
        exists [], (pushed_chunks calls2).
        rewrite Hbuf', Hbuffer. cbn [app]. auto.
      * cbn [length Nat.ltb Nat.leb] in Hexec.
        destruct turns as [|t turns].
        -- injection Hexec as <- <-. exists (chunk :: buffer), [].
           cbn. split; [reflexivity|]. split; [auto|].
           right. rewrite app_nil_r. split; [reflexivity|]. left. discriminate.
        -- cbn [exec] in Hexec.
           destruct t as [data| |]; [discriminate| discriminate |].
           cbn [exec_turn l_microtasks l_audioBuffer l_filterState] in Hexec.
           pose proof (flush_resume_calls
                         (convertChunksToMp3 (chunk :: buffer)) (chunk :: buffer))
             as [Hpushed Hhanded].
           destruct (flush_resume (convertChunksToMp3 (chunk :: buffer))
                       (chunk :: buffer)) as [audioBuffer' calls1] eqn:Hresume.
           cbn [snd] in Hpushed, Hhanded.
           destruct (exec _ turns) as [[st'' calls2]|] eqn:Hrest; [|discriminate].
           injection Hexec as <- <-.
           apply exec_no_tick in Hrest; [|exact Hnone|reflexivity].
           destruct Hrest as (Hbuf' & Hhanded' & Hquiet').
           cbn [l_audioBuffer] in Hbuf'.
           exists (chunk :: buffer), (pushed_chunks calls2).
           change (call_convertChunksToMp3 (chunk :: buffer) :: calls1 ++ calls2)
             with ([call_convertChunksToMp3 (chunk :: buffer)] ++ calls1 ++ calls2).
           rewrite !pushed_chunks_app, !handed_batches_app.
           rewrite Hpushed, Hhanded, Hhanded'.
           change (pushed_chunks [call_convertChunksToMp3 (chunk :: buffer)])
             with (@nil (list Z)).
           change (handed_batches [call_convertChunksToMp3 (chunk :: buffer)])
             with [chunk :: buffer].
           cbn [app].
           split; [reflexivity|]. split; [auto|].
           unfold flush_resume in Hresume.
           destruct (convertChunksToMp3 (chunk :: buffer)) as [mp3Base64|e] eqn:Hconv.
           ++ injection Hresume as <- <-. left. exact Hbuf'.
           ++ injection Hresume as <- <-. right. split; [exact Hbuf'|]. right. eauto.
    + unfold exec_turn in Hexec. rewrite Hquiet in Hexec. discriminate.
Qed.

End EventLoop.


(** C2. Atomic drain.  In every run of the event loop over ['message']
    tasks and one tick, the chunks pushed are, in order, the batch handed
    to the encoder followed by the chunks pushed after it: the batch is
    handed once (or there is none, when the tick found the accumulator
    empty), and the accumulator ends as the later chunks alone, or still
    holds the batch before them when the flush has not resumed or the
    conversion threw.  No chunk is dropped: no ['message'] task runs
    between the read of the buffer and its reset. *)
Theorem drain_is_atomic `{Mp3EncoderLib} (filterState : number) (turns : list turn)
    (st : loop_state) (calls : list call) :
  exec (loop_init filterState) turns = Some (st, calls) ->
  count_ticks turns = 1%nat ->
  exists batch post : list (list Z),
    pushed_chunks calls = batch ++ post
    /\ (handed_batches calls = [batch] \/ (handed_batches calls = [] /\ batch = []))
    /\ (l_audioBuffer st = post
        \/ (l_audioBuffer st = batch ++ post
            /\ (l_microtasks st <> []
                \/ exists e, convertChunksToMp3 batch = Throw e))).
Proof.
  intros Hexec Hticks.
  apply exec_one_tick in Hexec; [exact Hexec | lia | reflexivity].
Qed.

Lemma drain_is_atomic_witness :
  exists (st : loop_state) (calls : list call),
    @exec test_encoder (loop_init 0%float)
      [task_message (ArrayBuffer frame_loud); task_tick; microtask;
       task_message (ArrayBuffer frame_soft)]
    = Some (st, calls)
    /\ exists batch post : list (list Z),
         pushed_chunks calls = batch ++ post
         /\ (handed_batches calls = [batch] \/ (handed_batches calls = [] /\ batch = []))
         /\ (l_audioBuffer st = post
             \/ (l_audioBuffer st = batch ++ post
                 /\ (l_microtasks st <> []
                     \/ exists e, @convertChunksToMp3 test_encoder batch = Throw e))).
Proof.
  destruct (@exec test_encoder (loop_init 0%float)
              [task_message (ArrayBuffer frame_loud); task_tick; microtask;
               task_message (ArrayBuffer frame_soft)])
    as [[st calls]|] eqn:E; [|vm_compute in E; discriminate E].
  exists st, calls. split; [reflexivity|].
  apply (@drain_is_atomic test_encoder _ _ _ _ E). reflexivity.
Defined.

(** In a run the event loop admits, a tick that started a flush is
    followed by its own continuation and by nothing else. *)
Lemma exec_tick_then_microtask `{Mp3EncoderLib} (st : loop_state) (t : turn)
    (rest : list turn) :
  l_microtasks st = [] ->
  l_audioBuffer st <> [] ->
  is_Some (exec st (task_tick :: t :: rest)) ->
  t = microtask.
Proof.
  intros Hquiet Hbuffer [r Hexec]. cbn [exec] in Hexec.
  unfold exec_turn at 1 in Hexec. rewrite Hquiet in Hexec. unfold flush_begin in Hexec.
  destruct (l_audioBuffer st) as [|chunk buffer]; [congruence|].
  cbn [length Nat.ltb Nat.leb] in Hexec.
  destruct t; [discriminate | discriminate | reflexivity].
Qed.

(** The continuation of a tick resets the accumulator whatever it holds
    by then: that no chunk is lost rests on the loop taking no ['message']
    task before the continuation, not on the callback. *)
Remark flush_resume_discards (mp3Base64 : option string)
    (audioBuffer : list (list Z)) (late : list Z) :
  (flush_resume (Ok mp3Base64) (audioBuffer ++ [late])).1 = [].
Proof. reflexivity. Qed.

(** ** Decode failures *)

Lemma on_message_throw (filterState : number) (audioBuffer : list (list Z))
    (bytes : list byte) (e : js_error) :
  convertPCMToInt16 bytes = Throw e ->
  on_message filterState audioBuffer (ArrayBuffer bytes)
  = (filterState, audioBuffer, [res_write (error "Erro no processamento de áudio")]).
Proof.
  intros Hthrow. unfold on_message. rewrite Hthrow. reflexivity.
Qed.

Lemma Relay_session_eta (s : Relay.session) :
  {| Relay.remoteWs := Relay.remoteWs s; Relay.audioBuffer := Relay.audioBuffer s;
     Relay.endTimers := Relay.endTimers s |} = s.
Proof. destruct s; reflexivity. Qed.

Lemma RetryRelay_set_connection_id (s : RetryRelay.session) (k : nat)
    (c : RetryRelay.connection) :
  RetryRelay.connections s !! k = Some c ->
  RetryRelay.set_connection k
    {| RetryRelay.remoteWs := RetryRelay.remoteWs c;
       RetryRelay.audioBuffer := RetryRelay.audioBuffer c;
       RetryRelay.connectionTimeout := RetryRelay.connectionTimeout c |} s
  = s.
Proof.
  intros Hk. unfold RetryRelay.set_connection, RetryRelay.set_connections.
  replace {| RetryRelay.remoteWs := RetryRelay.remoteWs c;
             RetryRelay.audioBuffer := RetryRelay.audioBuffer c;
             RetryRelay.connectionTimeout := RetryRelay.connectionTimeout c |}
    with c by (destruct c; reflexivity).
  rewrite list_insert_id by exact Hk. destruct s; reflexivity.
Qed.

(** C10. Per-frame error containment.  A frame of odd byte length makes
    the decoder throw; the ['message'] handler of either variant then
    writes exactly one SSE error event and changes nothing: the filter
    state, the accumulator, the socket and the timers are as before, so
    the frames that follow are processed as if the bad frame had not come.
    A batch whose conversion throws is likewise answered by one error
    event, and the accumulator is kept. *)
Theorem frame_error_contained `{Mp3EncoderLib} (bytes : list byte) :
  Nat.Odd (length bytes) ->
  let report := [res_write (error "Erro no processamento de áudio")] in
  convertPCMToInt16 bytes = Throw RangeError
  /\ (forall (filterState : number) (s : Relay.session),
        Relay.handle filterState s (Relay.ws_message (ArrayBuffer bytes))
        = (filterState, s, report))
  /\ (forall (filterState : number) (s : RetryRelay.session) (k : nat)
             (c : RetryRelay.connection),
        RetryRelay.connections s !! k = Some c ->
        RetryRelay.handle filterState s (RetryRelay.ws_message k (ArrayBuffer bytes))
        = (filterState, s, report))
  /\ (forall (filterState : number) (s : Relay.session) (evs : list Relay.event),
        Relay.run filterState s (Relay.ws_message (ArrayBuffer bytes) :: evs)
        = let '(filterState', s', tr) := Relay.run filterState s evs in
          (filterState', s',
           inl (Relay.ws_message (ArrayBuffer bytes)) :: map inr report ++ tr))
  /\ (forall (audioBuffer : list (list Z)) (e : js_error),
        audioBuffer <> [] ->
        convertChunksToMp3 audioBuffer = Throw e ->
        on_tick audioBuffer
        = (audioBuffer,
           [call_convertChunksToMp3 audioBuffer;
            res_write (error "Erro na conversão para MP3")])).
Proof.
  intros [n Hn]. cbv zeta.
  assert (Hthrow : convertPCMToInt16 bytes = Throw RangeError)
    by (apply (convertPCMToInt16_odd bytes n); lia).
  split; [exact Hthrow|]. split; [|split; [|split]].
  - intros filterState s. cbn [Relay.handle].
    rewrite (on_message_throw _ _ _ _ Hthrow), Relay_session_eta. reflexivity.
  - intros filterState s k c Hk. cbn [RetryRelay.handle]. rewrite Hk.
    rewrite (on_message_throw _ _ _ _ Hthrow).
    rewrite (RetryRelay_set_connection_id s k c Hk). reflexivity.
  - intros filterState s evs. cbn [Relay.run Relay.handle].
    rewrite (on_message_throw _ _ _ _ Hthrow), Relay_session_eta. reflexivity.
  - intros audioBuffer e Hne Hconv. unfold on_tick, flush_begin.
    destruct audioBuffer as [|chunk buffer]; [congruence|].
    cbn [length Nat.ltb Nat.leb]. rewrite Hconv. reflexivity.
Qed.

Lemma frame_error_contained_witness :
  Nat.Odd (length [x01; x02; x03])
  /\ @Relay.handle test_encoder 0%float
       {| Relay.remoteWs := OPEN; Relay.audioBuffer := [[7]]; Relay.endTimers := 0 |}
       (Relay.ws_message (ArrayBuffer [x01; x02; x03]))
     = (0%float,
        {| Relay.remoteWs := OPEN; Relay.audioBuffer := [[7]]; Relay.endTimers := 0 |},
        [res_write (error "Erro no processamento de áudio")]).
Proof.
  assert (Hodd : Nat.Odd (length [x01; x02; x03])) by (exists 1%nat; reflexivity).
  split; [exact Hodd|].
  apply (@frame_error_contained test_encoder [x01; x02; x03] Hodd).
Defined.

(** The decoder throws exactly on the buffers of odd length. *)
Lemma convertPCMToInt16_throws_iff (bytes : list byte) :
  (exists e, convertPCMToInt16 bytes = Throw e) <-> Nat.Odd (length bytes).
Proof.
  split.
  - intros [e Hthrow].
    destruct (Nat.Even_or_Odd (length bytes)) as [[n Hn]|Hodd]; [|exact Hodd].
    rewrite (convertPCMToInt16_even bytes n) in Hthrow by lia. discriminate.
  - intros [n Hn]. exists RangeError. apply (convertPCMToInt16_odd bytes n). lia.
Qed.

(** ** Disconnect *)

Section Disconnect.

Context `{Mp3EncoderLib}.

Lemma on_req_close_lookup (s : RetryRelay.session) (k : nat) :
  RetryRelay.connections (RetryRelay.on_req_close s).1 !! k
  = (fun c => {| RetryRelay.remoteWs := close_socket (RetryRelay.remoteWs c);
                 RetryRelay.audioBuffer := RetryRelay.audioBuffer c;
                 RetryRelay.connectionTimeout := RetryRelay.connectionTimeout c |})
      <$> RetryRelay.connections s !! k.
Proof.
  unfold RetryRelay.on_req_close. cbn [fst RetryRelay.set_connections RetryRelay.connections].
  apply list_lookup_fmap.
Qed.

(** C9, as the code has it.  The disconnect handler calls [close()] on the
    upstream socket (on every socket the request opened, in the variant
    with retries) and does nothing else: no timer is cancelled and the
    accumulators are kept, so a tick after the disconnect makes the calls
    it would have made without it, encoder call and SSE write included. *)
Theorem disconnect_only_closes_socket :
  (forall (filterState : number) (s : Relay.session),
     Relay.handle filterState s Relay.req_close
     = (filterState,
        {| Relay.remoteWs := close_socket (Relay.remoteWs s);
           Relay.audioBuffer := Relay.audioBuffer s;
           Relay.endTimers := Relay.endTimers s |},
        [ws_close 0]))
  /\ (forall (filterState : number) (s : Relay.session),
        (Relay.handle filterState
           (Relay.handle filterState s Relay.req_close).1.2 Relay.tick).2
        = (Relay.handle filterState s Relay.tick).2)
  /\ (forall (filterState : number) (s : RetryRelay.session),
        RetryRelay.handle filterState s RetryRelay.req_close
        = (filterState, (RetryRelay.on_req_close s).1,
           map ws_close (seq 0 (length (RetryRelay.connections s))))
        /\ RetryRelay.retryTimers (RetryRelay.on_req_close s).1 = RetryRelay.retryTimers s
        /\ RetryRelay.fetching (RetryRelay.on_req_close s).1 = RetryRelay.fetching s
        /\ map RetryRelay.audioBuffer (RetryRelay.connections (RetryRelay.on_req_close s).1)
           = map RetryRelay.audioBuffer (RetryRelay.connections s))
  /\ (forall (filterState : number) (s : RetryRelay.session) (k : nat),
        (RetryRelay.handle filterState
           (RetryRelay.handle filterState s RetryRelay.req_close).1.2
           (RetryRelay.tick k)).2
        = (RetryRelay.handle filterState s (RetryRelay.tick k)).2).
Proof.
  split; [|split; [|split]].
  - intros filterState s. reflexivity.
  - intros filterState s. cbn [Relay.handle fst snd Relay.audioBuffer].
    destruct (on_tick (Relay.audioBuffer s)). reflexivity.
  - intros filterState s. split; [reflexivity|]. split; [reflexivity|].
    split; [reflexivity|].
    unfold RetryRelay.on_req_close.
    cbn [fst RetryRelay.set_connections RetryRelay.connections].
    rewrite map_map. reflexivity.
  - intros filterState s k.
    cbn [RetryRelay.handle RetryRelay.keep fst snd].
    rewrite on_req_close_lookup.
    destruct (RetryRelay.connections s !! k) as [c|]; [|reflexivity].
    cbn [fmap option_fmap option_map RetryRelay.audioBuffer].
    destruct (on_tick (RetryRelay.audioBuffer c)). reflexivity.
Qed.

End Disconnect.

(** C9 as stated fails: a frame arrives, the client disconnects, and the
    next tick of the interval, which nothing cancelled, still converts the
    accumulator and writes an [mp3] event. *)
Lemma flush_after_disconnect :
  after_disconnect Relay_is_disconnect
    (@Relay.run test_encoder 0%float
       {| Relay.remoteWs := CONNECTING; Relay.audioBuffer := []; Relay.endTimers := 0 |}
       [Relay.ws_open; Relay.ws_message (ArrayBuffer frame_soft);
        Relay.req_close; Relay.tick]).2
  = [ws_close 0; call_convertChunksToMp3 [[16]]; res_write (mp3 "///7")].
Proof. vm_compute. reflexivity. Qed.

(** ** Response headers *)

Section Headers.

Context {event : Type} (is_open : event -> bool).

Lemma headers_after_open_opened (tr : list (event + call)) :
  headers_after_open is_open true tr = true.
Proof.
  induction tr as [|[ev|c] tr IH]; [reflexivity| |].
  - exact IH.
  - destruct c; exact IH.
Qed.

Lemma headers_after_open_calls (calls : list call) (tr : list (event + call))
    (opened : bool) :
  no_writeHead calls ->
  headers_after_open is_open opened (map inr calls ++ tr)
  = headers_after_open is_open opened tr.
Proof.
  induction calls as [|c calls IH]; intros Hno; [reflexivity|].
  assert (Hrest : no_writeHead calls).
  { intros status Hin. apply (Hno status). right. exact Hin. }
  destruct c; cbn [map app headers_after_open]; try (apply IH; exact Hrest).
  exfalso. apply (Hno status). left.
Qed.

End Headers.

Ltac no_writeHead_list :=
  let status := fresh "status" in
  let Hin := fresh "Hin" in
  intros status Hin;
  repeat (apply elem_of_cons in Hin as [Hin|Hin]; [discriminate Hin|]);
  apply elem_of_nil in Hin; exact Hin.

Section RetryHeaders.

Context `{Mp3EncoderLib}.

Lemma on_message_no_writeHead (filterState : number) (audioBuffer : list (list Z))
    (data : ws_data) :
  no_writeHead (on_message filterState audioBuffer data).2.
Proof.
  unfold on_message. destruct data as [bytes|]; [|no_writeHead_list].
  destruct (convertPCMToInt16 bytes) as [chunk|e]; [|no_writeHead_list].
  destruct (applyLowPassFilter chunk sampleRate lowPassCutoff filterState).
  no_writeHead_list.
Qed.

Lemma on_tick_no_writeHead (audioBuffer : list (list Z)) :
  no_writeHead (on_tick audioBuffer).2.
Proof.
  unfold on_tick. destruct (flush_begin audioBuffer) as [settled|]; [|no_writeHead_list].
  destruct settled as [[[|c s]|]|e]; cbn; no_writeHead_list.
Qed.

Lemma retry_no_writeHead (s : RetryRelay.session) :
  no_writeHead (RetryRelay.retry s).2.
Proof. no_writeHead_list. Qed.

Lemma catch_block_no_writeHead (s : RetryRelay.session) :
  no_writeHead (RetryRelay.catch_block s).2.
Proof.
  unfold RetryRelay.catch_block. destruct (RetryRelay.can_retry s); no_writeHead_list.
Qed.

Lemma after_fetch_no_writeHead (s : RetryRelay.session) (r : RetryRelay.probe) :
  no_writeHead (RetryRelay.after_fetch s r).2.
Proof.
  destruct r as [code|]; [|apply catch_block_no_writeHead].
  unfold RetryRelay.after_fetch.
  destruct (code =? 404); [no_writeHead_list|].
  destruct ((code =? 400) && RetryRelay.can_retry s); [no_writeHead_list|].
  unfold RetryRelay.open_socket.
  destruct (RetryRelay.wsURL_ok s); [no_writeHead_list | apply catch_block_no_writeHead].
Qed.

Lemma on_error_no_writeHead (s : RetryRelay.session) (k : nat)
    (c : RetryRelay.connection) (code : RetryRelay.error_code) :
  no_writeHead (RetryRelay.on_error s k c code).2.
Proof.
  destruct code as [n|]; [|no_writeHead_list].
  unfold RetryRelay.on_error.
  destruct ((n =? 400) && RetryRelay.can_retry s); [no_writeHead_list|].
  destruct (n =? 404); no_writeHead_list.
Qed.

Lemma on_closed_no_writeHead (s : RetryRelay.session) (reason : string) :
  no_writeHead (RetryRelay.on_closed s reason).2.
Proof.
  unfold RetryRelay.on_closed. cbv zeta.
  destruct (_ && RetryRelay.can_retry s); [no_writeHead_list|].
  destruct (_ =? 404); no_writeHead_list.
Qed.

Lemma on_req_close_no_writeHead (s : RetryRelay.session) :
  no_writeHead (RetryRelay.on_req_close s).2.
Proof.
  intros status Hin. cbn [RetryRelay.on_req_close snd] in Hin.
  apply list_elem_of_fmap in Hin as (k & Hk & _). discriminate Hk.
Qed.

(** Only the ['open'] handler writes the response headers. *)
Lemma handle_no_writeHead (filterState : number) (s : RetryRelay.session)
    (ev : RetryRelay.event) :
  RetryRelay_is_open ev = false ->
  no_writeHead (RetryRelay.handle filterState s ev).2.
Proof.
  intros Hev. destruct ev as [r| |k|k|k code|k code reason|k data| |k];
    try discriminate Hev; cbn [RetryRelay.handle].
  - destruct (RetryRelay.fetching s); [no_writeHead_list|].
    apply after_fetch_no_writeHead.
  - destruct (RetryRelay.retryTimers s); no_writeHead_list.
  - destruct (RetryRelay.connections s !! k) as [c|]; [|no_writeHead_list].
    destruct (RetryRelay.connectionTimeout c); [|no_writeHead_list].
    destruct (is_OPEN (RetryRelay.remoteWs c)); no_writeHead_list.
  - destruct (RetryRelay.connections s !! k) as [c|]; [|no_writeHead_list].
    apply on_error_no_writeHead.
  - destruct (RetryRelay.connections s !! k) as [c|]; [|no_writeHead_list].
    apply on_closed_no_writeHead.
  - destruct (RetryRelay.connections s !! k) as [c|]; [|no_writeHead_list].
    pose proof (on_message_no_writeHead filterState (RetryRelay.audioBuffer c) data)
      as Hmsg.
    destruct (on_message filterState (RetryRelay.audioBuffer c) data) as [[? ?] ?].
    exact Hmsg.
  - apply on_req_close_no_writeHead.
  - destruct (RetryRelay.connections s !! k) as [c|]; [|no_writeHead_list].
    pose proof (on_tick_no_writeHead (RetryRelay.audioBuffer c)) as Htick.
    destruct (on_tick (RetryRelay.audioBuffer c)) as [? ?]. exact Htick.
Qed.

Lemma run_headers_after_open (evs : list RetryRelay.event) :
  forall (filterState : number) (s : RetryRelay.session) (opened : bool),
    headers_after_open RetryRelay_is_open opened (RetryRelay.run filterState s evs).2
    = true.
Proof.
  induction evs as [|ev evs IH]; intros filterState s opened; [reflexivity|].
  cbn [RetryRelay.run].
  pose proof (handle_no_writeHead filterState s ev) as Hcalls.
  destruct (RetryRelay.handle filterState s ev) as [[filterState' s'] calls].
  specialize (IH filterState' s').
  destruct (RetryRelay.run filterState' s' evs) as [[filterState'' s''] tr].
  cbn [snd] in *. cbn [headers_after_open].
  destruct (RetryRelay_is_open ev) eqn:Hev.
  - rewrite orb_true_r. apply headers_after_open_opened.
  - rewrite orb_false_r, headers_after_open_calls by (apply Hcalls; reflexivity).
    apply IH.
Qed.

(** C8, as the code has it.  In the variant with the probe, the request
    handler writes no headers, and in every run of a session, from any
    state, a [writeHead] comes only after an ['open'] event of an upstream
    socket.  ([index.ts] writes the headers in the request handler, before
    it creates the socket.) *)
Theorem headers_only_after_open :
  (forall (url : option string) (url_ok : bool),
     no_writeHead (RetryRelay.stream_request url url_ok).2)
  /\ (forall (filterState : number) (s : RetryRelay.session)
             (evs : list RetryRelay.event),
        headers_after_open RetryRelay_is_open false
          (RetryRelay.run filterState s evs).2 = true).
Proof.
  split.
  - intros [[|c url]|] url_ok; no_writeHead_list.
  - intros filterState s evs. apply run_headers_after_open.
Qed.

End RetryHeaders.

(** C8 as stated fails for [index.ts]: the request handler itself writes
    the 200 event-stream headers, and only then creates the socket. *)
Lemma headers_before_open :
  Relay.stream_request (Some "ws://host/room"%string)
  = (Some {| Relay.remoteWs := CONNECTING; Relay.audioBuffer := [];
             Relay.endTimers := 0 |},
     [res_writeHead 200; new_WebSocket 0])
  /\ headers_after_open Relay_is_open false
       (map inr (Relay.stream_request (Some "ws://host/room"%string)).2)
     = false.
Proof. split; reflexivity. Qed.

(** ** Sessions of one process *)

Section Sessions.

Context `{Mp3EncoderLib}.


(** C5 fails on the code: [filterState] is one variable of the module.
    Two live sessions; session 1 receives the frame of the sample 100.
    Alone, its filtered chunk is [16]; when session 0 has received the
    sample 32767 just before, the carry is session 0's last output and the
    chunk of session 1 is [4512]. *)
Theorem filterState_shared_by_sessions :
  let live := {| Relay.remoteWs := OPEN; Relay.audioBuffer := [];
                 Relay.endTimers := 0 |} in
  let p := {| Relay.filterState := 0%float; Relay.sessions := [live; live] |} in
  Relay.audioBuffer
    <$> Relay.sessions
          (Relay.process_run p [(1%nat, Relay.ws_message (ArrayBuffer frame_soft))])
        !! 1%nat
  = Some [[16]]
  /\ Relay.audioBuffer
       <$> Relay.sessions
             (Relay.process_run p
                [(0%nat, Relay.ws_message (ArrayBuffer frame_loud));
                 (1%nat, Relay.ws_message (ArrayBuffer frame_soft))])
           !! 1%nat
     = Some [[4512]].
Proof. split; vm_compute; reflexivity. Qed.

(** ** Retries *)

(** One round: the 400 is answered by a retry, the timer by a new probe. *)
Lemma transient_round_run (filterState : number) (s : RetryRelay.session)
    (rest : list RetryRelay.event) :
  (0 < RetryRelay.fetching s)%nat ->
  (RetryRelay.retryCount s < RetryRelay.MAX_RETRIES s)%nat ->
  RetryRelay.run filterState s (transient_round ++ rest)
  = let '(filterState', s', tr) := RetryRelay.run filterState (after_rounds 1 s) rest in
    (filterState', s',
     [inl (RetryRelay.fetch_done (RetryRelay.status 400));
      inr setTimeout_connectWebSocket;
      inl RetryRelay.retry_timer;
      inr fetch_probe] ++ tr).
Proof.
  intros Hfetch Hbudget.
  destruct s as [count max ok fetching timers conns].
  cbn [RetryRelay.retryCount RetryRelay.MAX_RETRIES RetryRelay.fetching] in *.
  destruct fetching as [|fetching]; [lia|].
  assert (Hcan : (count <? max)%nat = true) by (apply Nat.ltb_lt; lia).
  assert (Hfirst :
    RetryRelay.handle filterState
      {| RetryRelay.retryCount := count; RetryRelay.MAX_RETRIES := max;
         RetryRelay.wsURL_ok := ok; RetryRelay.fetching := S fetching;
         RetryRelay.retryTimers := timers; RetryRelay.connections := conns |}
      (RetryRelay.fetch_done (RetryRelay.status 400))
    = (filterState,
       {| RetryRelay.retryCount := S count; RetryRelay.MAX_RETRIES := max;
          RetryRelay.wsURL_ok := ok; RetryRelay.fetching := fetching;
          RetryRelay.retryTimers := S timers; RetryRelay.connections := conns |},
       [setTimeout_connectWebSocket])).
  { unfold RetryRelay.handle, RetryRelay.after_fetch, RetryRelay.can_retry,
      RetryRelay.set_fetching, RetryRelay.retry, RetryRelay.keep.
    cbn [RetryRelay.fetching RetryRelay.retryCount RetryRelay.MAX_RETRIES
         RetryRelay.wsURL_ok RetryRelay.retryTimers RetryRelay.connections].
    change (400 =? 404) with false. change (400 =? 400) with true.
    rewrite Hcan. reflexivity. }
  assert (Hsecond :
    RetryRelay.handle filterState
      {| RetryRelay.retryCount := S count; RetryRelay.MAX_RETRIES := max;
         RetryRelay.wsURL_ok := ok; RetryRelay.fetching := fetching;
         RetryRelay.retryTimers := S timers; RetryRelay.connections := conns |}
      RetryRelay.retry_timer
    = (filterState,
       {| RetryRelay.retryCount := S count; RetryRelay.MAX_RETRIES := max;
          RetryRelay.wsURL_ok := ok; RetryRelay.fetching := S fetching;
          RetryRelay.retryTimers := timers; RetryRelay.connections := conns |},
       [fetch_probe])) by reflexivity.
  unfold transient_round. cbn [app RetryRelay.run].
  rewrite Hfirst, Hsecond. unfold after_rounds.
  cbn [RetryRelay.fetching RetryRelay.retryCount RetryRelay.MAX_RETRIES
       RetryRelay.wsURL_ok RetryRelay.retryTimers RetryRelay.connections].
  replace (count + 1)%nat with (S count) by lia.
  destruct (RetryRelay.run filterState _ rest) as [[filterState' s'] tr].
  reflexivity.
Qed.

Lemma after_rounds_S (n : nat) (s : RetryRelay.session) :
  after_rounds n (after_rounds 1 s) = after_rounds (S n) s.
Proof.
  unfold after_rounds. cbn [RetryRelay.fetching RetryRelay.retryCount
    RetryRelay.MAX_RETRIES RetryRelay.wsURL_ok RetryRelay.retryTimers
    RetryRelay.connections].
  f_equal. lia.
Qed.

(** While the budget lasts, every probe answered 400 costs one retry and
    nothing else: no socket is opened and no response is sent. *)
Lemma transient_rounds_run (n : nat) :
  forall (filterState : number) (s : RetryRelay.session),
    (0 < RetryRelay.fetching s)%nat ->
    (RetryRelay.retryCount s + n <= RetryRelay.MAX_RETRIES s)%nat ->
    exists tr : list (RetryRelay.event + call),
      RetryRelay.run filterState s (transient_rounds n)
      = (filterState, after_rounds n s, tr)
      /\ count_calls is_retry (calls_of tr) = n
      /\ count_calls is_socket_open (calls_of tr) = 0%nat
      /\ count_calls is_terminal_response (calls_of tr) = 0%nat.
Proof.
  induction n as [|n IH]; intros filterState s Hfetch Hbudget.
  - exists []. unfold after_rounds. rewrite Nat.add_0_r.
    destruct s; repeat split; reflexivity.
  - destruct (IH filterState (after_rounds 1 s))
      as (tr & Hrun & Hretry & Hopen & Hterminal).
    + exact Hfetch.
    + unfold after_rounds.
      cbn [RetryRelay.retryCount RetryRelay.MAX_RETRIES]. lia.
    + cbn [transient_rounds]. rewrite transient_round_run by (assumption || lia).
      rewrite Hrun, after_rounds_S. eexists. split; [reflexivity|].
      split; [|split].
      * cbn. unfold calls_of in Hretry. rewrite Hretry. reflexivity.
      * cbn. unfold calls_of in Hopen. rewrite Hopen. reflexivity.
      * cbn. unfold calls_of in Hterminal. rewrite Hterminal. reflexivity.
Qed.

(** With the budget spent, a 400 is not retried and not refused: the
    handler goes on to open the socket. *)
Lemma transient_exhausted (filterState : number) (s : RetryRelay.session) :
  (0 < RetryRelay.fetching s)%nat ->
  RetryRelay.retryCount s = RetryRelay.MAX_RETRIES s ->
  RetryRelay.wsURL_ok s = true ->
  (RetryRelay.handle filterState s (RetryRelay.fetch_done (RetryRelay.status 400))).2
  = [new_WebSocket (length (RetryRelay.connections s))].
Proof.
  intros Hfetch Hcount Hok.
  destruct s as [count max ok fetching timers conns].
  cbn [RetryRelay.retryCount RetryRelay.MAX_RETRIES RetryRelay.fetching
       RetryRelay.wsURL_ok RetryRelay.connections] in *.
  destruct fetching as [|fetching]; [lia|]. subst count ok.
  unfold RetryRelay.handle, RetryRelay.after_fetch, RetryRelay.can_retry,
    RetryRelay.set_fetching, RetryRelay.open_socket, RetryRelay.keep.
  cbn [RetryRelay.fetching RetryRelay.retryCount RetryRelay.MAX_RETRIES
       RetryRelay.wsURL_ok RetryRelay.retryTimers RetryRelay.connections].
  change (400 =? 404) with false. change (400 =? 400) with true.
  rewrite Nat.ltb_irrefl. reflexivity.
Qed.

(** C3 fails on the code.  The probe answers 400 every time.  The thirty
    retries of the budget are made, and no more; but the thirty-first 400
    finds [retryCount < MAX_RETRIES] false and falls through to
    [new WebSocket(wsURL)]: a socket is opened and no terminal response is
    sent. *)
Theorem transient_probe_opens_socket (filterState : number) :
  let s0 := {| RetryRelay.retryCount := 0; RetryRelay.MAX_RETRIES := 30;
               RetryRelay.wsURL_ok := true; RetryRelay.fetching := 1;
               RetryRelay.retryTimers := 0; RetryRelay.connections := [] |} in
  let r := RetryRelay.run filterState s0
             (transient_rounds 30
              ++ [RetryRelay.fetch_done (RetryRelay.status 400)]) in
  RetryRelay.stream_request (Some "ws://host/room"%string) true = (Some s0, [fetch_probe])
  /\ RetryRelay.retryCount r.1.2 = 30%nat
  /\ count_calls is_retry (calls_of r.2) = 30%nat
  /\ count_calls is_terminal_response (calls_of r.2) = 0%nat
  /\ count_calls is_socket_open (calls_of r.2) = 1%nat
  /\ last r.2 = Some (inr (new_WebSocket 0))
  /\ RetryRelay.connections r.1.2
     = [{| RetryRelay.remoteWs := CONNECTING; RetryRelay.audioBuffer := [];
           RetryRelay.connectionTimeout := true |}].
Proof. cbv zeta. repeat split; vm_compute; reflexivity. Qed.

End Sessions.

(** * Further properties of the code *)

(** ** The decoder and concatenation *)

Lemma samples_of_app (n : nat) :
  forall a b : list byte,
    length a = (n * 2)%nat -> samples_of (a ++ b) = samples_of a ++ samples_of b.
Proof.
  induction n as [|n IH]; intros a b Hlen.
  - destruct a; [reflexivity | discriminate].
  - destruct a as [|lo [|hi a]]; try discriminate.
    cbn [app samples_of]. f_equal. apply IH. simpl in Hlen. lia.
Qed.

(** X2. Decoding a buffer that is cut at a sample boundary is decoding the
    two parts: the samples are appended, and the whole throws exactly when
    the second part does. *)
Theorem convertPCMToInt16_app (a b : list byte) :
  Nat.Even (length a) ->
  convertPCMToInt16 (a ++ b)
  = (try sa <- convertPCMToInt16 a;
     try sb <- convertPCMToInt16 b;
     Ok (sa ++ sb)).
Proof.
  intros [n Hn]. assert (Ha : length a = (n * 2)%nat) by lia.
  rewrite (convertPCMToInt16_even a n Ha). cbn [rbind].
  destruct (Nat.Even_or_Odd (length b)) as [[m Hm]|[m Hm]].
  - rewrite (convertPCMToInt16_even b m) by lia. cbn [rbind].
    rewrite (convertPCMToInt16_even (a ++ b) (n + m)) by (rewrite length_app; lia).
    rewrite (samples_of_app n a b Ha). reflexivity.
  - rewrite (convertPCMToInt16_odd b m) by lia. cbn [rbind].
    apply (convertPCMToInt16_odd (a ++ b) (n + m)). rewrite length_app. lia.
Qed.

Lemma convertPCMToInt16_app_witness :
  Nat.Even (length [x01; x00])
  /\ convertPCMToInt16 ([x01; x00] ++ [xff; xff; x07])
     = (try sa <- convertPCMToInt16 [x01; x00];
        try sb <- convertPCMToInt16 [xff; xff; x07];
        Ok (sa ++ sb)).
Proof.
  assert (Heven : Nat.Even (length [x01; x00])) by (exists 1%nat; reflexivity).
  split; [exact Heven|].
  apply (convertPCMToInt16_app [x01; x00] [xff; xff; x07] Heven).
Defined.

Lemma byte_to_of_Z (z : Z) : byte_to_Z (byte_of_Z z) = z mod 256.
Proof.
  unfold byte_of_Z, byte_to_Z.
  pose proof (Z.mod_pos_bound z 256 ltac:(lia)) as Hm.
  destruct (Byte.of_N (Z.to_N (z mod 256))) as [b|] eqn:E.
  - apply Byte.to_of_N in E. rewrite E. lia.
  - apply Byte.of_N_None_iff in E. lia.
Qed.

Lemma getInt16_setInt16 (v : Z) :
  int16_range v ->
  wrap16 (byte_to_Z (byte_of_Z v) + 256 * byte_to_Z (byte_of_Z (v / 256))) = v.
Proof.
  unfold int16_range. intros Hv. rewrite !byte_to_of_Z. unfold wrap16.
  assert (Hmod : (v mod 256 + 256 * ((v / 256) mod 256)) mod 65536 = v mod 65536)
    by (Z.div_mod_to_equations; lia).
  rewrite Hmod.
  destruct (32768 <=? v mod 65536) eqn:E;
    [apply Z.leb_le in E | apply Z.leb_gt in E];
    Z.div_mod_to_equations; lia.
Qed.

Lemma samples_of_encodePCM (samples : list Z) :
  Forall int16_range samples -> samples_of (encodePCM samples) = samples.
Proof.
  induction 1 as [|v samples Hv _ IH]; [reflexivity|].
  unfold encodePCM in *. cbn [map concat setInt16 app samples_of].
  rewrite (getInt16_setInt16 v Hv), IH. reflexivity.
Qed.

Lemma encodePCM_length (samples : list Z) :
  length (encodePCM samples) = (length samples * 2)%nat.
Proof.
  induction samples as [|v samples IH]; [reflexivity|].
  unfold encodePCM in *. cbn [map concat setInt16 app length]. rewrite IH. lia.
Qed.

(** X3. The other direction of the round trip: every sequence of samples
    in the signed 16-bit range, written out low byte first, is decoded
    back to itself without an exception. *)
Theorem convertPCMToInt16_encodePCM (samples : list Z) :
  Forall int16_range samples ->
  convertPCMToInt16 (encodePCM samples) = Ok samples.
Proof.
  intros Hrange.
  rewrite (convertPCMToInt16_even _ (length samples) (encodePCM_length samples)).
  rewrite (samples_of_encodePCM samples Hrange). reflexivity.
Qed.

Lemma convertPCMToInt16_encodePCM_witness :
  Forall int16_range [-32768; -1; 0; 32767]
  /\ convertPCMToInt16 (encodePCM [-32768; -1; 0; 32767]) = Ok [-32768; -1; 0; 32767].
Proof.
  assert (Hrange : Forall int16_range [-32768; -1; 0; 32767])
    by (repeat constructor; unfold int16_range; lia).
  split; [exact Hrange|].
  apply (convertPCMToInt16_encodePCM [-32768; -1; 0; 32767] Hrange).
Defined.

(** ** The filter on silence, and the value it hands on *)

Lemma filter_run_silence (n : nat) :
  filter_run (filter_alpha sampleRate lowPassCutoff) (replicate n 0) 0%float
  = (replicate n 0, 0%float).
Proof.
  induction n as [|n IH]; [reflexivity|].
  cbn [replicate filter_run].
  replace (filter_sample (filter_alpha sampleRate lowPassCutoff) 0 0%float)
    with 0%float by (vm_compute; reflexivity).
  rewrite IH. reflexivity.
Qed.

(** X4. Silence stays silence: with the configured sample rate and cutoff
    and a zero carry, any run of zero samples is filtered to zeros and the
    carry handed on is zero again. *)
Theorem applyLowPassFilter_silence (n : nat) :
  applyLowPassFilter (replicate n 0) sampleRate lowPassCutoff 0%float
  = (replicate n 0, 0%float).
Proof.
  rewrite applyLowPassFilter_run. apply filter_run_silence.
Qed.

Lemma filter_run_last (alpha : number) (data : list Z) :
  forall previous : number,
    (filter_run alpha data previous).2 = filter_y alpha data previous (length data).
Proof.
  induction data as [|x data IH]; intros previous; [reflexivity|].
  cbn [filter_run length]. rewrite filter_y_cons, <- IH.
  destruct (filter_run alpha data (filter_sample alpha x previous)). reflexivity.
Qed.

(** X5. The [lastValue] that the filter returns is the unrounded
    [y[n-1]] of the recurrence over the whole input; on an empty input it
    is the carry that came in. *)
Theorem applyLowPassFilter_lastValue (data : list Z) (sampleRate cutoff s : number) :
  (applyLowPassFilter data sampleRate cutoff s).2
  = filter_y (filter_alpha sampleRate cutoff) data s (length data)
  /\ applyLowPassFilter [] sampleRate cutoff s = ([], s).
Proof.
  split; [|reflexivity].
  rewrite applyLowPassFilter_run. apply filter_run_last.
Qed.

(** ** The blocks and the batches of [convertChunksToMp3] *)

Lemma blockSize_pos : (0 < blockSize)%nat.
Proof. unfold blockSize. lia. Qed.

Lemma block_count_bounds (len : nat) :
  (len <= (len + blockSize - 1) / blockSize * blockSize
   /\ (len + blockSize - 1) / blockSize * blockSize < len + blockSize)%nat.
Proof.
  pose proof blockSize_pos as Hpos.
  pose proof (Nat.div_mod_eq (len + blockSize - 1) blockSize) as Hdiv.
  pose proof (Nat.mod_upper_bound (len + blockSize - 1) blockSize ltac:(lia)) as Hmod.
  split; nia.
Qed.

Lemma block_list_concat (pcmData : list Z) (n : nat) :
  forall i : nat,
    (length pcmData <= i + n * blockSize)%nat ->
    concat (block_list pcmData n i) = drop i pcmData.
Proof.
  induction n as [|n IH]; intros i Hlen.
  - cbn [block_list concat]. rewrite drop_ge by lia. reflexivity.
  - cbn [block_list concat]. rewrite IH by lia. unfold subarray.
    replace (i + blockSize - i)%nat with blockSize by lia.
    rewrite <- (drop_drop pcmData blockSize i). apply take_drop.
Qed.

Lemma block_list_sizes (pcmData : list Z) (n : nat) :
  forall i : nat,
    (i + n * blockSize < length pcmData + blockSize)%nat ->
    Forall (fun block => (0 < length block <= blockSize)%nat) (block_list pcmData n i)
    /\ forall (j : nat) (block : list Z),
         block_list pcmData n i !! j = Some block ->
         (S j < n)%nat ->
         length block = blockSize.
Proof.
  pose proof blockSize_pos as Hpos.
  induction n as [|n IH]; intros i Hlen.
  - split; [constructor|]. intros j block Hj. discriminate Hj.
  - cbn [block_list].
    assert (Hblock : length (subarray pcmData i (i + blockSize))
                     = Nat.min blockSize (length pcmData - i)).
    { unfold subarray. replace (i + blockSize - i)%nat with blockSize by lia.
      rewrite length_take, length_drop. reflexivity. }
    destruct (IH (i + blockSize)%nat) as [Hsizes Hfull]; [lia|].
    split.
    + constructor; [rewrite Hblock; lia | exact Hsizes].
    + intros [|j] block Hj Hlast.
      * injection Hj as <-. rewrite Hblock. nia.
      * apply (Hfull j block Hj). lia.
Qed.

Lemma block_list_length (pcmData : list Z) (n : nat) :
  forall i : nat, length (block_list pcmData n i) = n.
Proof.
  induction n as [|n IH]; intros i; [reflexivity|].
  cbn [block_list length]. rewrite IH. reflexivity.
Qed.

Section Batches.

Context `{Mp3EncoderLib}.

(** X6. The block loop feeds the encoder a partition of the samples:
    consecutive blocks whose concatenation is the whole buffer, none
    empty, none longer than 1152, and all but the last of exactly 1152
    samples. *)
Theorem encode_loop_blocks (pcmData : list Z) (mp3Encoder : encoder) :
  exists blocks : list (list Z),
    encode_loop pcmData ((length pcmData + blockSize - 1) / blockSize) 0 mp3Encoder []
    = feed mp3Encoder blocks []
    /\ concat blocks = pcmData
    /\ Forall (fun block => (0 < length block <= blockSize)%nat) blocks
    /\ forall (j : nat) (block : list Z),
         blocks !! j = Some block ->
         (S j < length blocks)%nat ->
         length block = blockSize.
Proof.
  pose proof (block_count_bounds (length pcmData)) as [Hcover Htight].
  exists (block_list pcmData ((length pcmData + blockSize - 1) / blockSize) 0).
  split; [apply encode_loop_feed|]. split; [|split].
  - rewrite block_list_concat by lia. reflexivity.
  - apply block_list_sizes. lia.
  - intros j block Hj Hlast. rewrite block_list_length in Hlast.
    eapply block_list_sizes; [|exact Hj|exact Hlast]. lia.
Qed.

(** What [convertChunksToMp3] returns for a non-empty list of chunks: the
    Base64 text of every byte the encoder emitted, in order, [flush] last. *)
Lemma convertChunksToMp3_bytes (pcmChunks : list (list Z)) :
  pcmChunks <> [] ->
  convertChunksToMp3 pcmChunks
  = (try r <- feed (Mp3Encoder channels sampleRate bitRate)
                (block_list (concat pcmChunks)
                   ((length (concat pcmChunks) + blockSize - 1) / blockSize) 0) [];
     try mp3Final <- flush r.1;
     Ok (Some (base64 (concat r.2 ++ mp3Final)))).
Proof.
  intros Hne. unfold convertChunksToMp3.
  destruct pcmChunks as [|chunk pcmChunks]; [congruence|].
  cbn [length Nat.eqb]. cbv zeta.
  rewrite set_all_fresh, encode_loop_feed.
  destruct (feed _ _ []) as [[mp3Encoder' mp3Data]|e]; [|reflexivity].
  cbn [rbind fst snd].
  destruct (flush mp3Encoder') as [mp3Final|e]; [|reflexivity].
  cbn [rbind]. rewrite set_all_fresh.
  destruct mp3Final as [|b mp3Final]; cbn [length Nat.ltb Nat.leb].
  - rewrite app_nil_r. reflexivity.
  - rewrite concat_app. cbn [concat]. rewrite app_nil_r. reflexivity.
Qed.

(** X7. Only the samples count, not how the frames cut them: two
    non-empty accumulators with the same concatenation convert to the same
    result, the same Base64 text or the same exception. *)
Theorem convertChunksToMp3_chunking (pcmChunks pcmChunks' : list (list Z)) :
  pcmChunks <> [] ->
  pcmChunks' <> [] ->
  concat pcmChunks = concat pcmChunks' ->
  convertChunksToMp3 pcmChunks = convertChunksToMp3 pcmChunks'.
Proof.
  intros Hne Hne' Hsame.
  rewrite (convertChunksToMp3_bytes pcmChunks Hne).
  rewrite (convertChunksToMp3_bytes pcmChunks' Hne').
  rewrite Hsame. reflexivity.
Qed.

(** X8. An exception of the encoder is the exception of the conversion:
    when [encodeBuffer] throws on the first block of a batch that holds a
    sample, [convertChunksToMp3] throws the same error and [flush] is not
    reached. *)
Theorem convertChunksToMp3_throws (pcmChunks : list (list Z)) (e : js_error) :
  concat pcmChunks <> [] ->
  encodeBuffer (Mp3Encoder channels sampleRate bitRate)
    (subarray (concat pcmChunks) 0 blockSize) = Throw e ->
  convertChunksToMp3 pcmChunks = Throw e.
Proof.
  intros Hne Hthrow.
  assert (Hchunks : pcmChunks <> []) by (intros ->; apply Hne; reflexivity).
  rewrite (convertChunksToMp3_bytes pcmChunks Hchunks).
  pose proof (block_count_bounds (length (concat pcmChunks))) as [Hcover _].
  destruct ((length (concat pcmChunks) + blockSize - 1) / blockSize)%nat as [|n].
  - destruct (concat pcmChunks); [congruence | simpl in Hcover; lia].
  - cbn [block_list feed]. change (0 + blockSize)%nat with blockSize.
    rewrite Hthrow. reflexivity.
Qed.

End Batches.

Lemma convertChunksToMp3_chunking_witness :
  [[1; 2]; [3]] <> []
  /\ [[1]; [2; 3]] <> []
  /\ concat [[1; 2]; [3]] = concat [[1]; [2; 3]]
  /\ @convertChunksToMp3 test_encoder [[1; 2]; [3]]
     = @convertChunksToMp3 test_encoder [[1]; [2; 3]].
Proof.
  assert (H1 : [[1; 2]; [3]] <> @nil (list Z)) by discriminate.
  assert (H2 : [[1]; [2; 3]] <> @nil (list Z)) by discriminate.
  assert (H3 : concat [[1; 2]; [3]] = concat [[1]; [2; 3]]) by reflexivity.
  split; [exact H1|]. split; [exact H2|]. split; [exact H3|].
  apply (@convertChunksToMp3_chunking test_encoder _ _ H1 H2 H3).
Defined.

Lemma convertChunksToMp3_throws_witness :
  concat [[1; 2]; [3]] <> []
  /\ @encodeBuffer failing_encoder (@Mp3Encoder failing_encoder channels sampleRate bitRate)
       (subarray (concat [[1; 2]; [3]]) 0 blockSize) = Throw EncoderError
  /\ @convertChunksToMp3 failing_encoder [[1; 2]; [3]] = Throw EncoderError.
Proof.
  assert (H1 : concat [[1; 2]; [3]] <> @nil Z) by discriminate.
  assert (H2 : @encodeBuffer failing_encoder
                 (@Mp3Encoder failing_encoder channels sampleRate bitRate)
                 (subarray (concat [[1; 2]; [3]]) 0 blockSize) = Throw EncoderError)
    by reflexivity.
  split; [exact H1|]. split; [exact H2|].
  apply (@convertChunksToMp3_throws failing_encoder _ _ H1 H2).
Defined.

(** ** Ticks, one after another *)

Section Ticks.

Context `{Mp3EncoderLib}.


Lemma cleared_batches_app (calls1 calls2 : list call) :
  cleared_batches (calls1 ++ calls2) = cleared_batches calls1 ++ cleared_batches calls2.
Proof.
  unfold cleared_batches. rewrite handed_batches_app. apply List.filter_app.
Qed.

Lemma exec_conserves (n : nat) :
  forall (turns : list turn) (st st' : loop_state) (calls : list call),
    (length turns <= n)%nat ->
    exec st turns = Some (st', calls) ->
    l_microtasks st = [] ->
    l_microtasks st' = [] ->
    l_audioBuffer st ++ pushed_chunks calls
    = concat (cleared_batches calls) ++ l_audioBuffer st'.
Proof.
  induction n as [|n IH]; intros turns st st' calls Hlen Hexec Hquiet Hquiet'.
  - destruct turns; [|simpl in Hlen; lia].
    injection Hexec as <- <-. rewrite app_nil_r. reflexivity.
  - destruct turns as [|t turns].
    { injection Hexec as <- <-. rewrite app_nil_r. reflexivity. }
    cbn [exec] in Hexec. cbn [length] in Hlen. destruct t as [data| |].
    + unfold exec_turn in Hexec. rewrite Hquiet in Hexec.
      pose proof (on_message_calls (l_filterState st) (l_audioBuffer st) data) as Hmsg.
      destruct (on_message (l_filterState st) (l_audioBuffer st) data)
        as [[filterState' audioBuffer'] calls1].
      destruct Hmsg as [Hbuf Hhanded].
      destruct (exec _ turns) as [[st'' calls2]|] eqn:Hrest; [|discriminate].
      injection Hexec as <- <-.
      apply IH in Hrest; [|lia|reflexivity|exact Hquiet'].
      cbn [l_audioBuffer] in Hrest.
      rewrite pushed_chunks_app, cleared_batches_app.
      unfold cleared_batches at 1. rewrite Hhanded. cbn [List.filter app].
      rewrite app_assoc, <- Hbuf. exact Hrest.
    + unfold exec_turn in Hexec. rewrite Hquiet in Hexec. unfold flush_begin in Hexec.
      destruct (l_audioBuffer st) as [|chunk buffer] eqn:Hbuffer.
      * cbn [length Nat.ltb Nat.leb] in Hexec.
        destruct (exec st turns) as [[st'' calls2]|] eqn:Hrest; [|discriminate].
        injection Hexec as <- <-.
        apply IH in Hrest; [|lia|exact Hquiet|exact Hquiet'].
        rewrite Hbuffer in Hrest. exact Hrest.
      * cbn [length Nat.ltb Nat.leb] in Hexec.
        destruct turns as [|t turns].
        { injection Hexec as <- <-. discriminate Hquiet'. }
        cbn [exec] in Hexec.
        destruct t as [data| |]; [discriminate| discriminate |].
        cbn [exec_turn l_microtasks l_audioBuffer l_filterState] in Hexec.
        pose proof (flush_resume_calls
                      (convertChunksToMp3 (chunk :: buffer)) (chunk :: buffer))
          as [Hpushed Hhanded].
        destruct (flush_resume (convertChunksToMp3 (chunk :: buffer))
                    (chunk :: buffer)) as [audioBuffer' calls1] eqn:Hresume.
        cbn [snd] in Hpushed, Hhanded.
        destruct (exec _ turns) as [[st'' calls2]|] eqn:Hrest; [|discriminate].
        injection Hexec as <- <-.
        apply IH in Hrest; [|cbn [length] in Hlen; lia|reflexivity|exact Hquiet'].
        cbn [l_audioBuffer] in Hrest.
        change (call_convertChunksToMp3 (chunk :: buffer) :: calls1 ++ calls2)
          with ([call_convertChunksToMp3 (chunk :: buffer)] ++ calls1 ++ calls2).
        rewrite !pushed_chunks_app, !cleared_batches_app, Hpushed.
        unfold cleared_batches at 2. rewrite Hhanded. cbn [List.filter app].
        change (pushed_chunks [call_convertChunksToMp3 (chunk :: buffer)])
          with (@nil (list Z)).
        unfold cleared_batches at 1.
        change (handed_batches [call_convertChunksToMp3 (chunk :: buffer)])
          with [chunk :: buffer].
        cbn [List.filter app]. unfold flush_resume in Hresume.
        destruct (convertChunksToMp3 (chunk :: buffer)) as [mp3Base64|e].
        -- injection Hresume as <- <-. cbn [is_Ok concat app] in *.
           rewrite <- app_assoc, <- Hrest. reflexivity.
        -- injection Hresume as <- <-. cbn [is_Ok concat app] in *. exact Hrest.
    + unfold exec_turn in Hexec. rewrite Hquiet in Hexec. discriminate.
Qed.

(** X10. Over any number of ticks: in every run of the event loop that
    ends with no continuation pending, the chunks pushed are exactly the
    batches whose conversion returned, in order, followed by what the
    accumulator holds.  A batch whose conversion threw stays in the
    accumulator and is part of a later batch. *)
Theorem drain_accounts_for_every_chunk (filterState : number) (turns : list turn)
    (st : loop_state) (calls : list call) :
  exec (loop_init filterState) turns = Some (st, calls) ->
  l_microtasks st = [] ->
  pushed_chunks calls = concat (cleared_batches calls) ++ l_audioBuffer st.
Proof.
  intros Hexec Hquiet.
  apply (exec_conserves (length turns) turns _ _ _ (Nat.le_refl _) Hexec eq_refl Hquiet).
Qed.

End Ticks.

Lemma drain_accounts_for_every_chunk_witness :
  exists (st : loop_state) (calls : list call),
    @exec test_encoder (loop_init 0%float)
      [task_message (ArrayBuffer frame_loud); task_tick; microtask;
       task_message (ArrayBuffer frame_soft); task_message (ArrayBuffer frame_soft);
       task_tick; microtask; task_message (ArrayBuffer frame_loud)]
    = Some (st, calls)
    /\ l_microtasks st = []
    /\ pushed_chunks calls
       = concat (@cleared_batches test_encoder calls) ++ l_audioBuffer st.
Proof.
  destruct (@exec test_encoder (loop_init 0%float)
              [task_message (ArrayBuffer frame_loud); task_tick; microtask;
               task_message (ArrayBuffer frame_soft);
               task_message (ArrayBuffer frame_soft);
               task_tick; microtask; task_message (ArrayBuffer frame_loud)])
    as [[st calls]|] eqn:E; [|vm_compute in E; discriminate E].
  assert (Hquiet : l_microtasks st = [])
    by (vm_compute in E; injection E as <- _; reflexivity).
  exists st, calls. split; [reflexivity|]. split; [exact Hquiet|].
  apply (@drain_accounts_for_every_chunk test_encoder _ _ _ _ E Hquiet).
Defined.


(** ** Runs of a session of [index.ts] *)

Lemma count_calls_app (p : call -> bool) (calls1 calls2 : list call) :
  count_calls p (calls1 ++ calls2) = (count_calls p calls1 + count_calls p calls2)%nat.
Proof.
  induction calls1 as [|c calls1 IH]; [reflexivity|].
  cbn [app count_calls]. rewrite IH. lia.
Qed.

Lemma calls_of_step {event : Type} (ev : event) (calls : list call)
    (tr : list (event + call)) :
  calls_of (inl ev :: map inr calls ++ tr) = calls ++ calls_of tr.
Proof.
  unfold calls_of. cbn [omap list_omap].
  change (omap (fun x : event + call => match x with inr c => Some c | inl _ => None end)
            (map inr calls ++ tr))
    with (calls_of (map inr calls ++ tr)).
  unfold calls_of. rewrite omap_app. f_equal.
  induction calls as [|c calls IH]; [reflexivity|].
  cbn [map omap list_omap]. f_equal. exact IH.
Qed.

Section RelayRuns.

Context `{Mp3EncoderLib}.

Lemma on_message_writes (filterState : number) (audioBuffer : list (list Z))
    (data : ws_data) :
  count_calls is_mp3_write (on_message filterState audioBuffer data).2 = 0%nat
  /\ count_calls is_res_end (on_message filterState audioBuffer data).2 = 0%nat.
Proof.
  unfold on_message. destruct data as [bytes|]; [|split; reflexivity].
  destruct (convertPCMToInt16 bytes) as [chunk|e]; [|split; reflexivity].
  destruct (applyLowPassFilter chunk sampleRate lowPassCutoff filterState).
  split; reflexivity.
Qed.

Lemma on_tick_writes (audioBuffer : list (list Z)) :
  (count_calls is_mp3_write (on_tick audioBuffer).2 <= 1)%nat
  /\ count_calls is_res_end (on_tick audioBuffer).2 = 0%nat.
Proof.
  unfold on_tick. destruct (flush_begin audioBuffer) as [settled|]; [|split; cbn; lia].
  destruct settled as [[[|c s]|]|e]; split; cbn; lia.
Qed.

Lemma Relay_handle_writes (filterState : number) (s : Relay.session) (ev : Relay.event) :
  (count_calls is_mp3_write (Relay.handle filterState s ev).2
   <= if Relay_is_tick ev then 1 else 0)%nat
  /\ (count_calls is_res_end (Relay.handle filterState s ev).2
      + Relay.endTimers (Relay.handle filterState s ev).1.2
      = Relay.endTimers s + (if Relay_is_closed ev then 1 else 0))%nat.
Proof.
  destruct ev as [|data| | | | |]; cbn [Relay.handle Relay_is_tick Relay_is_closed];
    try (split; cbn; lia).
  - pose proof (on_message_writes filterState (Relay.audioBuffer s) data) as [Hmp3 Hend].
    destruct (on_message filterState (Relay.audioBuffer s) data) as [[? ?] calls].
    cbn [fst snd Relay.endTimers] in *. lia.
  - destruct (Relay.endTimers s) as [|n] eqn:E; split; cbn; rewrite ?E; lia.
  - pose proof (on_tick_writes (Relay.audioBuffer s)) as [Hmp3 Hend].
    destruct (on_tick (Relay.audioBuffer s)) as [? calls].
    cbn [fst snd Relay.endTimers] in *. lia.
Qed.

Lemma Relay_run_writes (evs : list Relay.event) :
  forall (filterState : number) (s : Relay.session),
    (count_calls is_mp3_write (calls_of (Relay.run filterState s evs).2)
     <= count_where Relay_is_tick evs)%nat
    /\ (count_calls is_res_end (calls_of (Relay.run filterState s evs).2)
        + Relay.endTimers (Relay.run filterState s evs).1.2
        = Relay.endTimers s + count_where Relay_is_closed evs)%nat.
Proof.
  induction evs as [|ev evs IH]; intros filterState s; [split; cbn; lia|].
  cbn [Relay.run count_where].
  pose proof (Relay_handle_writes filterState s ev) as [Hmp3 Hend].
  destruct (Relay.handle filterState s ev) as [[filterState' s'] calls].
  specialize (IH filterState' s'). destruct IH as [IHmp3 IHend].
  destruct (Relay.run filterState' s' evs) as [[filterState'' s''] tr].
  cbn [fst snd] in *. rewrite calls_of_step, !count_calls_app. lia.
Qed.

(** X11. At most one [mp3] event per tick: in every run of a session the
    number of [mp3] events written does not exceed the number of ticks of
    the interval; no other handler writes one. *)
Theorem mp3_events_bounded_by_ticks (filterState : number) (s : Relay.session)
    (evs : list Relay.event) :
  (count_calls is_mp3_write (calls_of (Relay.run filterState s evs).2)
   <= count_where Relay_is_tick evs)%nat.
Proof. apply Relay_run_writes. Qed.

(** X12. [res.end()] is the delayed answer to the upstream ['close']: over
    every run, the calls of [res.end()] made plus the end timers still
    pending are the timers pending at the start plus the ['close'] events
    received.  A session that started with none ends its response at most
    once per upstream close, and never before one. *)
Theorem res_end_follows_close (filterState : number) (s : Relay.session)
    (evs : list Relay.event) :
  (count_calls is_res_end (calls_of (Relay.run filterState s evs).2)
   + Relay.endTimers (Relay.run filterState s evs).1.2
   = Relay.endTimers s + count_where Relay_is_closed evs)%nat.
Proof. apply Relay_run_writes. Qed.

Lemma Relay_run_frames (frames : list (list byte)) :
  forall (filterState : number) (s : Relay.session),
    Forall (fun frame => Nat.Even (length frame)) frames ->
    exists (chunks : list (list Z)) (tr : list (Relay.event + call)),
      Relay.run filterState s (map (fun frame => Relay.ws_message (ArrayBuffer frame)) frames)
      = ((filter_run (filter_alpha sampleRate lowPassCutoff)
            (samples_of (concat frames)) filterState).2,
         {| Relay.remoteWs := Relay.remoteWs s;
            Relay.audioBuffer := Relay.audioBuffer s ++ chunks;
            Relay.endTimers := Relay.endTimers s |},
         tr)
      /\ concat chunks
         = (filter_run (filter_alpha sampleRate lowPassCutoff)
              (samples_of (concat frames)) filterState).1
      /\ length chunks = length frames
      /\ sse_writes (calls_of tr) = []
      /\ Nat.Even (length (concat frames)).
Proof.
  induction frames as [|frame frames IH]; intros filterState s Heven.
  - exists [], []. cbn. rewrite app_nil_r, Relay_session_eta.
    repeat split. exists 0%nat. reflexivity.
  - inversion Heven as [|? ? [n Hn] Hrest]; subst.
    assert (Hlen : length frame = (n * 2)%nat) by lia.
    cbn [map Relay.run Relay.handle]. unfold on_message.
    rewrite (convertPCMToInt16_even frame n Hlen), applyLowPassFilter_run.
    destruct (filter_run (filter_alpha sampleRate lowPassCutoff)
                (samples_of frame) filterState) as [filtered lastValue] eqn:Efirst.
    destruct (IH lastValue
                {| Relay.remoteWs := Relay.remoteWs s;
                   Relay.audioBuffer := Relay.audioBuffer s ++ [filtered];
                   Relay.endTimers := Relay.endTimers s |} Hrest)
      as (chunks & tr & Hrun & Hconcat & Hcount & Hwrites & [m Hm]).
    rewrite Hrun. cbn [Relay.remoteWs Relay.audioBuffer Relay.endTimers].
    exists (filtered :: chunks). eexists.
    cbn [concat]. rewrite (samples_of_app n frame (concat frames) Hlen).
    rewrite filter_run_app, Efirst. cbn [fst snd].
    split; [rewrite <- app_assoc; reflexivity|].
    split; [rewrite Hconcat; reflexivity|].
    split; [cbn [length]; rewrite Hcount; reflexivity|].
    split.
    + rewrite calls_of_step. unfold sse_writes in *. rewrite omap_app, Hwrites.
      reflexivity.
    + exists (n + m)%nat. rewrite length_app. lia.
Qed.

(** X13. Continuity over a whole stream.  When a session alone receives
    frames of even length, the chunks it accumulates, one per frame, are
    together the filter's output on the whole decoded stream in one call,
    and [filterState] ends as that call's last value: the cuts between the
    frames leave no trace.  Nothing is written to the response. *)
Theorem stream_is_filtered_as_a_whole (frames : list (list byte))
    (filterState : number) (s : Relay.session) :
  Forall (fun frame => Nat.Even (length frame)) frames ->
  exists (samples : list Z) (chunks : list (list Z)) (tr : list (Relay.event + call)),
    convertPCMToInt16 (concat frames) = Ok samples
    /\ Relay.run filterState s
         (map (fun frame => Relay.ws_message (ArrayBuffer frame)) frames)
       = ((applyLowPassFilter samples sampleRate lowPassCutoff filterState).2,
          {| Relay.remoteWs := Relay.remoteWs s;
             Relay.audioBuffer := Relay.audioBuffer s ++ chunks;
             Relay.endTimers := Relay.endTimers s |},
          tr)
    /\ concat chunks = (applyLowPassFilter samples sampleRate lowPassCutoff filterState).1
    /\ length chunks = length frames
    /\ sse_writes (calls_of tr) = [].
Proof.
  intros Heven.
  destruct (Relay_run_frames frames filterState s Heven)
    as (chunks & tr & Hrun & Hconcat & Hcount & Hwrites & [m Hm]).
  exists (samples_of (concat frames)), chunks, tr.
  rewrite applyLowPassFilter_run.
  split; [apply (convertPCMToInt16_even _ m); lia|]. auto.
Qed.

End RelayRuns.

Lemma stream_is_filtered_as_a_whole_witness :
  Forall (fun frame => Nat.Even (length frame)) [frame_loud; frame_soft]
  /\ exists (samples : list Z) (chunks : list (list Z)) (tr : list (Relay.event + call)),
       convertPCMToInt16 (concat [frame_loud; frame_soft]) = Ok samples
       /\ @Relay.run test_encoder 0%float
            {| Relay.remoteWs := OPEN; Relay.audioBuffer := []; Relay.endTimers := 0 |}
            (map (fun frame => Relay.ws_message (ArrayBuffer frame))
               [frame_loud; frame_soft])
          = ((applyLowPassFilter samples sampleRate lowPassCutoff 0%float).2,
             {| Relay.remoteWs := OPEN; Relay.audioBuffer := [] ++ chunks;
                Relay.endTimers := 0 |},
             tr)
       /\ concat chunks = (applyLowPassFilter samples sampleRate lowPassCutoff 0%float).1
       /\ length chunks = length [frame_loud; frame_soft]
       /\ sse_writes (calls_of tr) = [].
Proof.
  assert (Heven : Forall (fun frame => Nat.Even (length frame)) [frame_loud; frame_soft])
    by (repeat constructor; exists 1%nat; reflexivity).
  split; [exact Heven|].
  apply (@stream_is_filtered_as_a_whole test_encoder [frame_loud; frame_soft] 0%float
           {| Relay.remoteWs := OPEN; Relay.audioBuffer := []; Relay.endTimers := 0 |}
           Heven).
Defined.

(** ** Runs of a session of the variant with retries *)

Section RetryRuns.

Context `{Mp3EncoderLib}.

Lemma on_message_control (filterState : number) (audioBuffer : list (list Z))
    (data : ws_data) :
  count_calls is_retry (on_message filterState audioBuffer data).2 = 0%nat
  /\ count_calls is_socket_open (on_message filterState audioBuffer data).2 = 0%nat
  /\ count_calls is_fetch_probe (on_message filterState audioBuffer data).2 = 0%nat.
Proof.
  unfold on_message. destruct data as [bytes|]; [|repeat split; reflexivity].
  destruct (convertPCMToInt16 bytes) as [chunk|e]; [|repeat split; reflexivity].
  destruct (applyLowPassFilter chunk sampleRate lowPassCutoff filterState).
  repeat split; reflexivity.
Qed.

Lemma on_tick_control (audioBuffer : list (list Z)) :
  count_calls is_retry (on_tick audioBuffer).2 = 0%nat
  /\ count_calls is_socket_open (on_tick audioBuffer).2 = 0%nat
  /\ count_calls is_fetch_probe (on_tick audioBuffer).2 = 0%nat.
Proof.
  unfold on_tick. destruct (flush_begin audioBuffer) as [settled|];
    [|repeat split; reflexivity].
  destruct settled as [[[|c s]|]|e]; repeat split; reflexivity.
Qed.

Ltac budget_cases :=
  repeat match goal with
         | |- context [match ?x with _ => _ end] => destruct x eqn:?
         | |- context [if ?x then _ else _] => destruct x eqn:?
         end;
  repeat match goal with
         | E : (_ && _) = true |- _ => apply andb_true_iff in E as [? ?]
         | E : (_ <? _)%nat = true |- _ => apply Nat.ltb_lt in E
         end;
  cbn in *; repeat split; try lia.

(** One event: the ceiling is not touched, the counter grows by the
    retries scheduled and stays under the ceiling, and a socket is opened
    only by using up an awaited probe. *)
Lemma RetryRelay_handle_budget (filterState : number) (s : RetryRelay.session)
    (ev : RetryRelay.event) :
  RetryRelay.MAX_RETRIES (RetryRelay.handle filterState s ev).1.2
  = RetryRelay.MAX_RETRIES s
  /\ RetryRelay.retryCount (RetryRelay.handle filterState s ev).1.2
     = (RetryRelay.retryCount s
        + count_calls is_retry (RetryRelay.handle filterState s ev).2)%nat
  /\ ((RetryRelay.retryCount s <= RetryRelay.MAX_RETRIES s)%nat ->
      (RetryRelay.retryCount (RetryRelay.handle filterState s ev).1.2
       <= RetryRelay.MAX_RETRIES s)%nat)
  /\ (count_calls is_socket_open (RetryRelay.handle filterState s ev).2
      + RetryRelay.fetching (RetryRelay.handle filterState s ev).1.2
      <= RetryRelay.fetching s
         + count_calls is_fetch_probe (RetryRelay.handle filterState s ev).2)%nat.
Proof.
  destruct s as [count max ok fetching timers conns].
  destruct ev as [r| |k|k|k code|k code reason|k data| |k]; cbn [RetryRelay.handle].
  - unfold RetryRelay.after_fetch, RetryRelay.open_socket, RetryRelay.catch_block,
      RetryRelay.retry, RetryRelay.can_retry, RetryRelay.set_fetching,
      RetryRelay.set_connections, RetryRelay.keep.
    cbn [RetryRelay.fetching RetryRelay.retryCount RetryRelay.MAX_RETRIES
         RetryRelay.wsURL_ok RetryRelay.retryTimers RetryRelay.connections].
    budget_cases.
  - unfold RetryRelay.connectWebSocket, RetryRelay.set_fetching,
      RetryRelay.set_retryTimers, RetryRelay.keep.
    cbn [RetryRelay.fetching RetryRelay.retryCount RetryRelay.MAX_RETRIES
         RetryRelay.wsURL_ok RetryRelay.retryTimers RetryRelay.connections].
    budget_cases.
  - unfold RetryRelay.set_connection, RetryRelay.set_connections.
    cbn [RetryRelay.fetching RetryRelay.retryCount RetryRelay.MAX_RETRIES
         RetryRelay.wsURL_ok RetryRelay.retryTimers RetryRelay.connections].
    budget_cases.
  - unfold RetryRelay.set_connection, RetryRelay.set_connections.
    cbn [RetryRelay.fetching RetryRelay.retryCount RetryRelay.MAX_RETRIES
         RetryRelay.wsURL_ok RetryRelay.retryTimers RetryRelay.connections].
    budget_cases.
  - unfold RetryRelay.on_error, RetryRelay.retry, RetryRelay.can_retry,
      RetryRelay.set_connection, RetryRelay.set_connections, RetryRelay.keep.
    cbn [RetryRelay.fetching RetryRelay.retryCount RetryRelay.MAX_RETRIES
         RetryRelay.wsURL_ok RetryRelay.retryTimers RetryRelay.connections].
    budget_cases.
  - unfold RetryRelay.on_closed, RetryRelay.retry, RetryRelay.can_retry,
      RetryRelay.set_connection, RetryRelay.set_connections, RetryRelay.keep.
    cbn [RetryRelay.fetching RetryRelay.retryCount RetryRelay.MAX_RETRIES
         RetryRelay.wsURL_ok RetryRelay.retryTimers RetryRelay.connections].
    budget_cases.
  - cbn [RetryRelay.connections].
    destruct (conns !! k) as [c|]; [|cbn; repeat split; lia].
    pose proof (on_message_control filterState (RetryRelay.audioBuffer c) data)
      as (Hretry & Hopen & Hprobe).
    destruct (on_message filterState (RetryRelay.audioBuffer c) data) as [[? ?] calls].
    cbn in *. repeat split; lia.
  - unfold RetryRelay.on_req_close, RetryRelay.set_connections, RetryRelay.keep.
    cbn [RetryRelay.fetching RetryRelay.retryCount RetryRelay.MAX_RETRIES
         RetryRelay.wsURL_ok RetryRelay.retryTimers RetryRelay.connections fst snd].
    assert (Hclose : forall p : call -> bool,
               (forall k, p (ws_close k) = false) ->
               forall l : list nat, count_calls p (map ws_close l) = 0%nat).
    { intros p Hp l. induction l as [|k l IH]; [reflexivity|].
      cbn [map count_calls]. rewrite Hp, IH. reflexivity. }
    rewrite !Hclose by reflexivity. repeat split; lia.
  - cbn [RetryRelay.connections].
    destruct (conns !! k) as [c|]; [|cbn; repeat split; lia].
    pose proof (on_tick_control (RetryRelay.audioBuffer c)) as (Hretry & Hopen & Hprobe).
    destruct (on_tick (RetryRelay.audioBuffer c)) as [? calls].
    cbn in *. repeat split; lia.
Qed.

Lemma RetryRelay_run_budget (evs : list RetryRelay.event) :
  forall (filterState : number) (s : RetryRelay.session),
    RetryRelay.MAX_RETRIES (RetryRelay.run filterState s evs).1.2
    = RetryRelay.MAX_RETRIES s
    /\ RetryRelay.retryCount (RetryRelay.run filterState s evs).1.2
       = (RetryRelay.retryCount s
          + count_calls is_retry (calls_of (RetryRelay.run filterState s evs).2))%nat
    /\ ((RetryRelay.retryCount s <= RetryRelay.MAX_RETRIES s)%nat ->
        (RetryRelay.retryCount (RetryRelay.run filterState s evs).1.2
         <= RetryRelay.MAX_RETRIES s)%nat)
    /\ (count_calls is_socket_open (calls_of (RetryRelay.run filterState s evs).2)
        + RetryRelay.fetching (RetryRelay.run filterState s evs).1.2
        <= RetryRelay.fetching s
           + count_calls is_fetch_probe
               (calls_of (RetryRelay.run filterState s evs).2))%nat.
Proof.
  induction evs as [|ev evs IH]; intros filterState s; [cbn; repeat split; lia|].
  cbn [RetryRelay.run].
  pose proof (RetryRelay_handle_budget filterState s ev) as (Hmax & Hcount & Hle & Hopen).
  destruct (RetryRelay.handle filterState s ev) as [[filterState' s'] calls].
  specialize (IH filterState' s'). destruct IH as (IHmax & IHcount & IHle & IHopen).
  destruct (RetryRelay.run filterState' s' evs) as [[filterState'' s''] tr].
  cbn [fst snd] in *. rewrite calls_of_step, !count_calls_app.
  repeat split; lia.
Qed.

(** X15. The retry budget is one budget for every path.  In every run,
    whatever the probes, errors and closes, [MAX_RETRIES] is never changed,
    [retryCount] counts exactly the retries scheduled, and it never passes
    the ceiling: a session that starts within its budget schedules at most
    [MAX_RETRIES - retryCount] retries. *)
Theorem retries_within_budget (filterState : number) (s : RetryRelay.session)
    (evs : list RetryRelay.event) :
  (RetryRelay.retryCount s <= RetryRelay.MAX_RETRIES s)%nat ->
  RetryRelay.MAX_RETRIES (RetryRelay.run filterState s evs).1.2 = RetryRelay.MAX_RETRIES s
  /\ RetryRelay.retryCount (RetryRelay.run filterState s evs).1.2
     = (RetryRelay.retryCount s
        + count_calls is_retry (calls_of (RetryRelay.run filterState s evs).2))%nat
  /\ (count_calls is_retry (calls_of (RetryRelay.run filterState s evs).2)
      <= RetryRelay.MAX_RETRIES s - RetryRelay.retryCount s)%nat.
Proof.
  intros Hstart.
  pose proof (RetryRelay_run_budget evs filterState s) as (Hmax & Hcount & Hle & _).
  specialize (Hle Hstart). repeat split; [exact Hmax | exact Hcount | lia].
Qed.

(** X16. No socket without a probe: in every run, the sockets opened are
    at most the probes that were awaited at the start plus the probes
    started since; each [new WebSocket] uses up one answered probe. *)
Theorem sockets_bounded_by_probes (filterState : number) (s : RetryRelay.session)
    (evs : list RetryRelay.event) :
  (count_calls is_socket_open (calls_of (RetryRelay.run filterState s evs).2)
   + RetryRelay.fetching (RetryRelay.run filterState s evs).1.2
   <= RetryRelay.fetching s
      + count_calls is_fetch_probe (calls_of (RetryRelay.run filterState s evs).2))%nat.
Proof. apply RetryRelay_run_budget. Qed.

End RetryRuns.

Lemma retries_within_budget_witness :
  (RetryRelay.retryCount
     {| RetryRelay.retryCount := 29; RetryRelay.MAX_RETRIES := 30;
        RetryRelay.wsURL_ok := true; RetryRelay.fetching := 1;
        RetryRelay.retryTimers := 0; RetryRelay.connections := [] |}
   <= 30)%nat
  /\ (count_calls is_retry
        (calls_of
           (@RetryRelay.run test_encoder 0%float
              {| RetryRelay.retryCount := 29; RetryRelay.MAX_RETRIES := 30;
                 RetryRelay.wsURL_ok := true; RetryRelay.fetching := 1;
                 RetryRelay.retryTimers := 0; RetryRelay.connections := [] |}
              (transient_rounds 3)).2)
      <= 30 - 29)%nat.
Proof.
  assert (Hstart : (29 <= 30)%nat) by lia.
  split; [exact Hstart|].
  apply (@retries_within_budget test_encoder 0%float
           {| RetryRelay.retryCount := 29; RetryRelay.MAX_RETRIES := 30;
              RetryRelay.wsURL_ok := true; RetryRelay.fetching := 1;
              RetryRelay.retryTimers := 0; RetryRelay.connections := [] |}
           (transient_rounds 3) Hstart).
Defined.

(** ** Terminal answers of the probe, timeouts and closes *)

Section RetryTerminal.

Context `{Mp3EncoderLib}.

Lemma inert_handle (filterState : number) (s : RetryRelay.session) (ev : RetryRelay.event) :
  inert s -> RetryRelay.handle filterState s ev = (filterState, s, []).
Proof.
  intros (Hfetch & Htimers & Hconns).
  destruct s as [count max ok fetching timers conns]. cbn in Hfetch, Htimers, Hconns.
  subst fetching timers conns.
  destruct ev; reflexivity.
Qed.

Lemma inert_run (evs : list RetryRelay.event) :
  forall (filterState : number) (s : RetryRelay.session),
    inert s -> calls_of (RetryRelay.run filterState s evs).2 = [].
Proof.
  induction evs as [|ev evs IH]; intros filterState s Hinert; [reflexivity|].
  cbn [RetryRelay.run]. rewrite (inert_handle filterState s ev Hinert).
  specialize (IH filterState s Hinert).
  destruct (RetryRelay.run filterState s evs) as [[filterState' s'] tr].
  cbn [snd] in *. rewrite calls_of_step. exact IH.
Qed.

Lemma RetryRelay_run_calls (filterState : number) (s : RetryRelay.session)
    (ev : RetryRelay.event) (evs : list RetryRelay.event) :
  calls_of (RetryRelay.run filterState s (ev :: evs)).2
  = (RetryRelay.handle filterState s ev).2
    ++ calls_of (RetryRelay.run (RetryRelay.handle filterState s ev).1.1
                   (RetryRelay.handle filterState s ev).1.2 evs).2.
Proof.
  cbn [RetryRelay.run].
  destruct (RetryRelay.handle filterState s ev) as [[filterState' s'] calls].
  cbn [fst snd].
  destruct (RetryRelay.run filterState' s' evs) as [[filterState'' s''] tr].
  apply calls_of_step.
Qed.

(** X17. A 404 from the first probe is final.  The request answers 404
    once and does nothing more, whatever events follow: no socket is ever
    opened, no retry scheduled, no second response written. *)
Theorem probe_404_is_final (filterState : number) (c : ascii) (url : string)
    (url_ok : bool) (evs : list RetryRelay.event) :
  exists s0 : RetryRelay.session,
    RetryRelay.stream_request (Some (String c url)) url_ok = (Some s0, [fetch_probe])
    /\ calls_of
         (RetryRelay.run filterState s0
            (RetryRelay.fetch_done (RetryRelay.status 404) :: evs)).2
       = [res_status_json 404 "WebSocket endpoint not found"].
Proof.
  eexists. split; [reflexivity|].
  rewrite RetryRelay_run_calls. cbn [RetryRelay.handle RetryRelay.fetching].
  change (RetryRelay.after_fetch ?s (RetryRelay.status 404))
    with (s, [res_status_json 404 "WebSocket endpoint not found"]).
  cbn [RetryRelay.keep fst snd]. rewrite inert_run; [reflexivity|].
  repeat split.
Qed.


(** X19. The disconnect reaches every socket of the request, also the
    ones left over from earlier attempts: afterwards no connection is
    connecting or open, and each keeps its accumulator. *)
Theorem disconnect_shuts_every_socket (filterState : number) (s : RetryRelay.session) :
  let s' := (RetryRelay.handle filterState s RetryRelay.req_close).1.2 in
  Forall (fun c => is_shut (RetryRelay.remoteWs c) = true) (RetryRelay.connections s')
  /\ map RetryRelay.audioBuffer (RetryRelay.connections s')
     = map RetryRelay.audioBuffer (RetryRelay.connections s)
  /\ count_calls (fun c => match c with ws_close _ => true | _ => false end)
       (RetryRelay.handle filterState s RetryRelay.req_close).2
     = length (RetryRelay.connections s).
Proof.
  cbv zeta. cbn [RetryRelay.handle RetryRelay.keep RetryRelay.on_req_close fst snd
                 RetryRelay.set_connections RetryRelay.connections].
  split; [|split].
  - apply Forall_fmap, Forall_true. intros c. cbn.
    destruct (RetryRelay.remoteWs c); reflexivity.
  - rewrite map_map. reflexivity.
  - generalize 0%nat. induction (RetryRelay.connections s) as [|c conns IH]; intros n;
      [reflexivity|].
    cbn [length seq map count_calls]. rewrite IH. reflexivity.
Qed.


End RetryTerminal.


(** ** Reasons and addresses *)

Lemma prefix_app (needle post : string) :
  String.prefix needle (needle ++ post) = true.
Proof.
  induction needle as [|a needle IH]; [destruct post; reflexivity|].
  simpl. destruct (Ascii.ascii_dec a a) as [_|Hne]; [exact IH | congruence].
Qed.

Lemma index_prefix (needle s : string) :
  String.prefix needle s = true -> String.index 0 needle s = Some 0%nat.
Proof.
  intros Hprefix.
  destruct needle as [|a needle]; destruct s as [|b s]; try reflexivity.
  - discriminate Hprefix.
  - simpl in *. destruct (Ascii.ascii_dec a b); [|discriminate Hprefix].
    rewrite Hprefix. reflexivity.
Qed.


Lemma substring_whole (s : string) : String.substring 0 (String.length s) s = s.
Proof.
  induction s as [|a s IH]; [reflexivity|].
  cbn [String.length String.substring]. rewrite IH. reflexivity.
Qed.

Section Reasons.

Context `{Mp3EncoderLib}.


End Reasons.


(** X22. The probe goes to the HTTP twin of the socket's address: an
    address that starts with [ws] is probed with [http] in its place, so
    [ws://] becomes [http://] and [wss://] becomes [https://]; and the
    host [audracs.com.br] of a [wss://] address is replaced by [vapi.ai]
    with the rest of the address kept. *)
Theorem probe_address_scheme (rest path : string) :
  probe_address ("ws" ++ rest) = ("http" ++ rest)%string
  /\ wsURL_of ("wss://audracs.com.br" ++ path) = ("wss://vapi.ai" ++ path)%string
  /\ probe_address (wsURL_of ("wss://audracs.com.br" ++ path))
     = ("https://vapi.ai" ++ path)%string.
Proof.
  assert (Hprobe : forall rest' : string,
             probe_address ("ws" ++ rest') = ("http" ++ rest')%string).
  { intros rest'. unfold probe_address, String_replace.
    rewrite (index_prefix "ws" ("ws" ++ rest') (prefix_app "ws" rest')).
    cbv beta iota fix delta [String.append].
    cbn [String.length String.substring Nat.add Nat.sub].
    rewrite Nat.sub_0_r, substring_whole. reflexivity. }
  assert (Hhost : wsURL_of ("wss://audracs.com.br" ++ path)
                  = ("wss://vapi.ai" ++ path)%string).
  { unfold wsURL_of, String_replace.
    assert (Hindex : String.index 0 "audracs.com.br"
                       ("wss://audracs.com.br" ++ path) = Some 6%nat).
    { pose proof (index_prefix "audracs.com.br" ("audracs.com.br" ++ path)
                    (prefix_app "audracs.com.br" path)) as Hfound.
      change ("wss://audracs.com.br" ++ path)%string
        with (String "w" (String "s" (String "s" (String ":" (String "/" (String "/"
                ("audracs.com.br" ++ path))))))).
      destruct ("audracs.com.br" ++ path)%string as [|a tail] eqn:E;
        [discriminate E|].
      assert (Ha : a = "a"%char) by (injection E as -> _; reflexivity).
      subst a. simpl String.index in *. simpl. rewrite Hfound. reflexivity. }
    rewrite Hindex.
    cbv beta iota fix delta [String.append].
    cbn [String.length String.substring Nat.add Nat.sub].
    rewrite Nat.sub_0_r, substring_whole. reflexivity. }
  split; [apply Hprobe|]. split; [exact Hhost|].
  rewrite Hhost. apply (Hprobe ("s://vapi.ai" ++ path)%string).
Qed.

(** ** Frames and batches without samples *)

(** X23. A frame of zero bytes is not an error: the handler pushes an empty
    chunk and leaves [filterState] alone.  An accumulator that holds only
    such chunks passes the guard of the tick, and its conversion calls
    [encodeBuffer] not once: the result is the Base64 text of what [flush]
    returns on a fresh encoder, or the exception of that [flush]. *)
Theorem empty_frames_reach_flush `{Mp3EncoderLib} :
  (forall (filterState : number) (audioBuffer : list (list Z)),
     on_message filterState audioBuffer (ArrayBuffer [])
     = (filterState, audioBuffer ++ [[]], [audioBuffer_push []]))
  /\ (forall pcmChunks : list (list Z),
        pcmChunks <> [] ->
        concat pcmChunks = [] ->
        flush_begin pcmChunks = Some (convertChunksToMp3 pcmChunks)
        /\ convertChunksToMp3 pcmChunks
           = (try mp3Final <- flush (Mp3Encoder channels sampleRate bitRate);
              Ok (Some (base64 mp3Final)))).
Proof.
  split; [reflexivity|].
  intros pcmChunks Hne Hempty. split.
  - unfold flush_begin. destruct pcmChunks; [congruence | reflexivity].
  - rewrite (convertChunksToMp3_bytes pcmChunks Hne), Hempty. reflexivity.
Qed.

(** ** Parity of the frame, and the records of other sessions *)

(** X1. The decoder is decided by the parity of the byte length: a buffer
    of odd length throws a [RangeError] (the last [getInt16] reads past the
    end), a buffer of even length never throws. *)
Theorem convertPCMToInt16_parity (bytes : list byte) :
  (Nat.Odd (length bytes) <-> convertPCMToInt16 bytes = Throw RangeError)
  /\ (Nat.Even (length bytes) <-> exists samples, convertPCMToInt16 bytes = Ok samples).
Proof.
  split; split.
  - intros [n Hn]. apply (convertPCMToInt16_odd bytes n). lia.
  - intros Hthrow.
    destruct (Nat.Even_or_Odd (length bytes)) as [[n Hn]|Hodd]; [|exact Hodd].
    rewrite (convertPCMToInt16_even bytes n) in Hthrow by lia. discriminate.
  - intros [n Hn]. exists (samples_of bytes). apply (convertPCMToInt16_even bytes n). lia.
  - intros [samples Hok].
    destruct (Nat.Even_or_Odd (length bytes)) as [Heven|[n Hn]]; [exact Heven|].
    rewrite (convertPCMToInt16_odd bytes n) in Hok by lia. discriminate.
Qed.


